(** * Stochastic risk engine of the fulfilment dashboard (src/app.py)

    A shallow embedding of the numerical core of [app.py]: the
    hyper-geometric acceptance-sampling computation and its OC curve, the
    empirical Value-at-Risk of the squared service times, the discrete
    convolution of the two log-normal service-time densities, the
    colouring of the autocorrelation bars, and the construction of the
    four-state CTMC generator together with its transient solution.

    Conventions of the embedding.
    - Python integers are [Z].
    - Python floats are idealised as exact numbers: rationals ([Q]) where
      the code only uses field operations and comparisons, reals ([R])
      where it calls [sqrt], [exp], [log] or the matrix exponential.  The
      float value [nan] is kept as a separate constructor.
    - Where the rounding of a double decides an integer result, the defect
      counts [int(batch_size * p)] along the OC grid, the arithmetic is
      modelled in IEEE binary64: [fl] rounds an exact result to the
      nearest double, ties to the even significand.
    - A statement that may raise yields a value of type [py A].
    - Library routines (scipy's [hypergeom], [lognorm] and [expm], numpy's
      [percentile], [linspace] and [convolve], statsmodels' [acf]) are
      modelled by the mathematical function each one computes.
    - Definitions carry the names of the variables of [app.py]; the matrix
      [Q] is called [Q_matrix], since [Q] is the type of rationals. *)

From Stdlib Require Import ZArith QArith Qpower Qround Qabs Qminmax List Lia Bool.
From Stdlib Require Import Reals Qreals Psatz.
Import ListNotations.

Local Open Scope Z_scope.

(* ================================================================== *)
(** * Python values *)
(* ================================================================== *)

(** A Python float: a finite value or [nan]. *)
Inductive pyfloat : Type :=
| Fin (q : Q)
| NaN.

(** Exceptions the modelled statements can raise. *)
Inductive exn : Type :=
| ZeroDivisionError.

(** Outcome of running a statement. *)
Inductive py (A : Type) : Type :=
| Ret (a : A)
| Raise (e : exn).
Arguments Ret {A} a.
Arguments Raise {A} e.

(** [int(x)] on a float: truncation toward zero. *)
Definition py_int (x : Q) : Z := Z.quot (Qnum x) (Zpos (Qden x)).

(** [round(x)] on a float: nearest integer, ties to the even one. *)
Definition py_round (x : Q) : Z :=
  let f := Qfloor x in
  let r := (x - inject_Z f)%Q in
  match (r ?= 1 # 2)%Q with
  | Lt => f
  | Gt => f + 1
  | Eq => if Z.even f then f else f + 1
  end.

(* ================================================================== *)
(** * Double-precision arithmetic *)
(* ================================================================== *)

(** A double is represented by the rational number it denotes. *)

Definition pow2 (e : Z) : Q := Qpower 2 e.

(** For [x > 0], the exponent [e] with [2^e <= x < 2^(e+1)]. *)
Definition binade (x : Q) : Z :=
  let e0 := Z.log2 (Qnum x) - Z.log2 (Zpos (Qden x)) in
  if Qle_bool (pow2 e0) x then e0 else e0 - 1.

(** The spacing of the doubles around [x > 0]: 53 significant bits, and
    the fixed spacing [2^-1074] below [2^-1022]. *)
Definition ulp (x : Q) : Q := pow2 (Z.max (binade x) (-1022) - 52).

(** [fl x] is the double nearest to [x], ties going to the even
    significand (the integer rounding is that of [py_round]).  Overflow is
    not modelled: the largest values met here are batch sizes, which the
    widget keeps below [2^53]. *)
Definition fl (x : Q) : Q :=
  match (x ?= 0)%Q with
  | Eq => 0%Q
  | Gt => (inject_Z (py_round (x / ulp x)) * ulp x)%Q
  | Lt => (- (inject_Z (py_round (- x / ulp (- x))) * ulp (- x)))%Q
  end.

(** The four operations on doubles and the conversion [float(n)]. *)
Definition fadd (a b : Q) : Q := fl (a + b).
Definition fsub (a b : Q) : Q := fl (a - b).
Definition fmul (a b : Q) : Q := fl (a * b).
Definition fdiv (a b : Q) : Q := fl (a / b).
Definition float_of_int (n : Z) : Q := fl (inject_Z n).

(** [np.linspace(start, stop, num)] on doubles, for [num > 1] and distinct
    end points: numpy computes [step = (stop - start) / (num - 1)], fills
    entry [i] with [i * step + start], and stores [stop] itself in the last
    entry. *)
Definition linspace_double (start stop : Q) (num : nat) : list Q :=
  let step := fdiv (fsub stop start) (float_of_int (Z.of_nat (num - 1))) in
  map (fun i => fadd (fmul (float_of_int (Z.of_nat i)) step) start)
      (seq 0 (num - 1))
  ++ [stop].

(* ================================================================== *)
(** * Part 1: acceptance sampling (app.py, lines 381-382, 486-493, 603-611) *)
(* ================================================================== *)

(** Binomial coefficient by Pascal's rule. *)
Fixpoint choose (n k : nat) {struct n} : Z :=
  match k, n with
  | O, _ => 1
  | S _, O => 0
  | S k', S n' => choose n' k' + choose n' k
  end.

(** Binomial coefficient on integers; zero outside [0 <= k <= n]. *)
Definition binom (n k : Z) : Z :=
  if (n <? 0) || (k <? 0) then 0 else choose (Z.to_nat n) (Z.to_nat k).

(** [sum_upto f c] is [f 0 + f 1 + ... + f c]. *)
Fixpoint sum_upto (f : Z -> Q) (c : nat) : Q :=
  match c with
  | O => f 0
  | S c' => (sum_upto f c' + f (Z.of_nat c))%Q
  end.

(** [scipy.stats.hypergeom] with scipy's argument names: a population of
    [M] items of which [n] are marked, and [N] draws without replacement.
    [_argcheck] decides whether the parameters are admissible; when they
    are not, [pmf] and [cdf] return [nan]. *)
Definition hypergeom_argcheck (M n N : Z) : bool :=
  (0 <? M) && (0 <=? n) && (0 <=? N) && (n <=? M) && (N <=? M).

Definition hypergeom_pmf (k M n N : Z) : Q :=
  (inject_Z (binom n k * binom (M - n) (N - k)) / inject_Z (binom M N))%Q.

Definition hypergeom_cdf (k M n N : Z) : pyfloat :=
  if hypergeom_argcheck M n N then
    Fin (if k <? 0 then 0%Q
         else sum_upto (fun j => hypergeom_pmf j M n N) (Z.to_nat k))
  else NaN.

(** Line 382: [naive_sample_n = int(batch_size * naive_inspection_rate)]. *)
Definition naive_sample_n (batch_size : Z) (naive_inspection_rate : Q) : Z :=
  py_int (inject_Z batch_size * naive_inspection_rate).

(** Line 490: [M = int(batch_size * real_defect_rate)]. *)
Definition M_defects (batch_size : Z) (real_defect_rate : Q) : Z :=
  py_int (inject_Z batch_size * real_defect_rate).

(** Line 493:
    [prob_accept = hypergeom.cdf(acceptance_number, batch_size, M, naive_sample_n)].
    Nothing on this path raises. *)
Definition prob_accept (acceptance_number batch_size M naive_sample_n : Z)
  : py pyfloat :=
  Ret (hypergeom_cdf acceptance_number batch_size M naive_sample_n).

(** The spec's name and argument order for the same computation. *)
Definition acceptProbability (N M n c : Z) : py pyfloat := prob_accept c N M n.

(** Line 604: [defect_rates = np.linspace(0, 0.20, 100)]; the literal
    [0.20] denotes the double nearest to 1/5. *)
Definition defect_rates : list Q := linspace_double 0 (fl (1 # 5)) 100.

(** Lines 608-609: [M_sim = int(batch_size * p)], the product of the
    integer [batch_size] and the double [p] taken in double precision and
    truncated, followed by [M_sim = max(0, min(M_sim, batch_size))]. *)
Definition M_sim (batch_size : Z) (p : Q) : Z :=
  Z.max 0 (Z.min (py_int (fmul (float_of_int batch_size) p)) batch_size).

(** Line 610: the acceptance probability at one grid point. *)
Definition oc_point (acceptance_number batch_size naive_sample_n : Z) (p : Q)
  : pyfloat :=
  hypergeom_cdf acceptance_number batch_size (M_sim batch_size p) naive_sample_n.

(** Lines 605-611: the loop filling [probs_accept]. *)
Definition probs_accept (acceptance_number batch_size naive_sample_n : Z)
  : list pyfloat :=
  map (oc_point acceptance_number batch_size naive_sample_n) defect_rates.

(** What the specification's [ocCurve] prescribes for the defect count at a
    grid point: [M = round(N * p)]. *)
Definition M_round_spec (N : Z) (p : Q) : Z := py_round (inject_Z N * p).

(** Ranges of the input widgets (lines 49, 381, 486, 487). *)
Definition batch_size_ok (batch_size : Z) : Prop := 100 <= batch_size.
Definition inspection_rate_ok (r : Q) : Prop := (0 <= r <= 1)%Q.
Definition defect_rate_ok (r : Q) : Prop := (0 <= r <= 1 # 5)%Q.
Definition acceptance_number_ok (c : Z) : Prop := 0 <= c <= 20.

(** Auxiliary integer sums, counts and factorials used to reason about the
    cumulative probability. *)

(** [zsum_upto f c] is [f 0 + f 1 + ... + f c] on integers. *)
Fixpoint zsum_upto (f : Z -> Z) (c : nat) : Z :=
  match c with
  | O => f 0
  | S c' => zsum_upto f c' + f (Z.of_nat c)
  end.

(** Numerator of the cumulative hyper-geometric probability: the number of
    samples of size [n] with at most [c] marked items, drawn from [m]
    marked and [g] unmarked items. *)
Definition hg_num (m g n : Z) (c : nat) : Z :=
  zsum_upto (fun k => binom m k * binom g (n - k)) c.

(** Factorial, as an integer. *)
Fixpoint zfact (n : nat) : Z :=
  match n with
  | O => 1
  | S n' => Z.of_nat n * zfact n'
  end.

(** Falling product [n * (n - 1) * ... * (n - k + 1)]. *)
Fixpoint zfall (n : Z) (k : nat) : Z :=
  match k with
  | O => 1
  | S k' => n * zfall (n - 1) k'
  end.


(* ================================================================== *)
(** * Part 2: cost risk (app.py, lines 881-889 and 1142-1144) *)
(* ================================================================== *)

(** Ascending sort of a sample (numpy sorts or partitions the array before
    interpolating). *)
Fixpoint insert_sorted (x : Q) (l : list Q) : list Q :=
  match l with
  | [] => [x]
  | y :: l' => if Qle_bool x y then x :: l else y :: insert_sorted x l'
  end.

Fixpoint sort_asc (l : list Q) : list Q :=
  match l with
  | [] => []
  | x :: l' => insert_sorted x (sort_asc l')
  end.

(** [np.percentile(a, q)] with the default linear interpolation: with the
    sorted data [s] of length [n], the virtual index is
    [h = q / 100 * (n - 1)], and the result interpolates between
    [s[floor h]] and its successor with weight [h - floor h].  On an empty
    array the result is [nan]. *)
Definition percentile (a : list Q) (q : Q) : pyfloat :=
  match a with
  | [] => NaN
  | _ :: _ =>
      let s := sort_asc a in
      let n := Z.of_nat (length a) in
      let h := (q / 100 * inject_Z (n - 1))%Q in
      let lo := Qfloor h in
      let hi := Z.min (lo + 1) (n - 1) in
      let g := (h - inject_Z lo)%Q in
      let x_lo := nth (Z.to_nat lo) s 0%Q in
      let x_hi := nth (Z.to_nat hi) s 0%Q in
      Fin (x_lo + (x_hi - x_lo) * g)%Q
  end.

(** Lines 883-885: [q99 = service_times.quantile(0.99)] (linear
    interpolation, as [np.percentile]) and
    [service_times_clean = service_times[service_times < q99]]. *)
Definition service_times_clean (service_times : list Q) : list Q :=
  match percentile service_times 99 with
  | Fin q99 => filter (fun t => negb (Qle_bool q99 t)) service_times
  | NaN => []
  end.

(** Lines 887 and 1142: [risks = service_times_clean ** 2], the cost
    function [g(t) = t^2] applied to every observation of the sample. *)
Definition risks (sample : list Q) : list Q :=
  map (fun t => (t * t)%Q) sample.

(** Lines 888-889 and 1143-1144. *)
Definition var_95 (sample : list Q) : pyfloat := percentile (risks sample) 95.
Definition var_99 (sample : list Q) : pyfloat := percentile (risks sample) 99.

(** A list is ascending when every element is below all later ones. *)
Fixpoint ascending (l : list Q) : Prop :=
  match l with
  | [] => True
  | x :: l' => (forall y, In y l' -> (x <= y)%Q) /\ ascending l'
  end.

(* ================================================================== *)
(** * Part 3: service-time convolution (app.py, lines 1569-1599) *)
(* ================================================================== *)

(** [np.linspace(start, stop, num)]. *)
Definition linspace (start stop : R) (num : nat) : list R :=
  map (fun i => (start + INR i * ((stop - start) / INR (num - 1)))%R)
      (seq 0 num).

(** Line 1573: [x_axis = np.linspace(0, 30, 1000)]. *)
Definition x_axis : list R := linspace 0 30 1000.

(** [scipy.stats.lognorm.pdf(x, s, scale=scale)]: the density of
    [scale * exp(s * Z)] for a standard normal [Z]; zero outside the
    support [x > 0]. *)
Definition lognorm_pdf (x s scale : R) : R :=
  if Rlt_dec 0 x then
    (/ scale *
     (/ (s * (x / scale) * sqrt (2 * PI))
      * exp (- (ln (x / scale) * ln (x / scale)) / (2 * (s * s)))))%R
  else 0%R.

(** Lines 1576-1577. *)
Definition pdf_pick (sigma scale_pick : R) : list R :=
  map (fun x => lognorm_pdf x sigma scale_pick) x_axis.
Definition pdf_pack (sigma scale_pack : R) : list R :=
  map (fun x => lognorm_pdf x sigma scale_pack) x_axis.

(** Element-wise sum of two arrays, the shorter one padded with zeros. *)
Fixpoint ladd (a b : list R) : list R :=
  match a, b with
  | [], _ => b
  | _, [] => a
  | x :: a', y :: b' => (x + y)%R :: ladd a' b'
  end.

(** [np.convolve(a, b, mode='full')]: entry [k] is the sum of
    [a[i] * b[k - i]]. *)
Fixpoint convolve (a b : list R) : list R :=
  match a with
  | [] => []
  | x :: a' => ladd (map (Rmult x) b) (0%R :: convolve a' b)
  end.

(** Line 1591: [dx = x_axis[1] - x_axis[0]]. *)
Definition dx : R := (nth 1 x_axis 0 - nth 0 x_axis 0)%R.

(** Line 1592: [pdf_total = np.convolve(pdf_pick, pdf_pack, mode='full') * dx]. *)
Definition pdf_total (sigma scale_pick scale_pack : R) : list R :=
  map (fun v => (v * dx)%R)
      (convolve (pdf_pick sigma scale_pick) (pdf_pack sigma scale_pack)).

(** Line 1595: [x_total = np.linspace(0, 60, len(pdf_total))]. *)
Definition x_total (sigma scale_pick scale_pack : R) : list R :=
  linspace 0 60 (length (pdf_total sigma scale_pick scale_pack)).



(* ================================================================== *)
(** * Part 4: autocorrelation (app.py, lines 2112, 2146-2161, 2297-2312) *)
(* ================================================================== *)

Definition mean (x : list Q) : Q :=
  (fold_right Qplus 0 x / inject_Z (Z.of_nat (length x)))%Q.

Fixpoint dot (a b : list Q) : Q :=
  match a, b with
  | x :: a', y :: b' => (x * y + dot a' b')%Q
  | _, _ => 0%Q
  end.

(** [statsmodels.tsa.stattools.acf(x, nlags)] with its defaults: the biased
    estimator, the lag-[k] autocovariance of the demeaned series divided by
    the lag-0 one, for [k = 0 .. nlags].  A constant series gives [0 / 0],
    that is [nan]. *)
Definition acf (x : list Q) (nlags : nat) : list pyfloat :=
  let m := mean x in
  let d := map (fun v => (v - m)%Q) x in
  let c0 := dot d d in
  map (fun k => if Qeq_bool c0 0 then NaN
                else Fin (dot d (skipn k d) / c0)%Q)
      (seq 0 (S nlags)).

(** Line 2112: [acf_values = acf(ts_data, nlags=min(acf_lags, len(ts_data)-1))]. *)
Definition acf_values (ts_data : list Q) (acf_lags : nat) : list pyfloat :=
  acf ts_data (Nat.min acf_lags (length ts_data - 1)).

(** [abs(val) > 0.3] on a float; every comparison with [nan] is false. *)
Definition exceeds_03 (val : pyfloat) : bool :=
  match val with
  | Fin v => negb (Qle_bool (Qabs v) (3 # 10))
  | NaN => false
  end.

(** Line 2297:
    [colors = ['#EF4444' if abs(val) > 0.3 else '#93C5FD' for val in acf_values]]. *)
Inductive bar_color : Type :=
| Red        (* '#EF4444' *)
| LightBlue. (* '#93C5FD' *)

Definition colors (acf_values : list pyfloat) : list bar_color :=
  map (fun val => if exceeds_03 val then Red else LightBlue) acf_values.

(** Lines 2151-2153: the lag whose value is reported in the metric card. *)
Definition check_lag (seasonal_period : nat) (acf_values : list pyfloat) : nat :=
  if (seasonal_period <? length acf_values)%nat then seasonal_period
  else (length acf_values - 1)%nat.

Definition seasonal_acf (seasonal_period : nat) (acf_values : list pyfloat)
  : pyfloat :=
  let k := check_lag seasonal_period acf_values in
  if (0 <? k)%nat then nth k acf_values NaN else Fin 0.

(** Line 2161: ['Strong Memory' if abs(seasonal_acf) > 0.3 else 'Weak Memory']. *)
Inductive memory_label : Type :=
| StrongMemory
| WeakMemory.

Definition memory (seasonal_period : nat) (acf_values : list pyfloat)
  : memory_label :=
  if exceeds_03 (seasonal_acf seasonal_period acf_values)
  then StrongMemory else WeakMemory.

(** Line 2309: [confidence_bound = 1.96 / np.sqrt(len(ts_data))]; it is only
    passed to [add_hline] (lines 2310-2312). *)
Definition confidence_bound (ts_data : list Q) : R :=
  (196 / 100 / sqrt (INR (length ts_data)))%R.

(** What the specification asks of a lag to be called significant. *)
Definition outside_band (ts_data : list Q) (rho : Q) : Prop :=
  (confidence_bound ts_data < Q2R (Qabs rho))%R.

(** Two demand series used below: nine buckets with a linear trend, and one
    hundred buckets repeating the pattern 3, 1, 2, 3, 1. *)
Definition ts_trend : list Q := map (fun k => inject_Z (Z.of_nat k)) (seq 1 9).
Definition ts_cycle : list Q :=
  concat (repeat [3%Q; 1%Q; 2%Q; 3%Q; 1%Q] 20).

(* ================================================================== *)
(** * Part 5: transient Markov solver
      (app.py, lines 2504-2528, 2577, 2740-2759, 2842-2847, 2956-2967) *)
(* ================================================================== *)

Definition bind {A B : Type} (m : py A) (f : A -> py B) : py B :=
  match m with
  | Ret a => f a
  | Raise e => Raise e
  end.

Notation "x <- m ;; k" := (bind m (fun x => k))
  (at level 61, m at next level, right associativity).

(** True division of two Python numbers: a zero divisor raises. *)
Definition py_div (a b : Q) : py Q :=
  if Qeq_bool b 0 then Raise ZeroDivisionError else Ret (a / b)%Q.

(** [a > b] on numbers. *)
Definition Qgt_bool (a b : Q) : bool := negb (Qle_bool a b).

(** Line 2528: [service_capacity = num_servers * 2]. *)
Definition service_capacity (num_servers : Z) : Z := num_servers * 2.

(** Line 2577: [utilization = lambda_rate / service_capacity]. *)
Definition utilization (lambda_rate service_capacity : Z) : py Q :=
  py_div (inject_Z lambda_rate) (inject_Z service_capacity).

(** Line 2740: [stress_factor = utilization / (2 - utilization)]. *)
Definition stress_factor (utilization : Q) : py Q :=
  py_div utilization (2 - utilization).

(** Line 2741: [up_rate = lambda_rate * stress_factor / 20.0]. *)
Definition up_rate (lambda_rate : Z) (stress_factor : Q) : Q :=
  (inject_Z lambda_rate * stress_factor / 20)%Q.

(** Line 2742: [down_rate = service_capacity / 20.0]. *)
Definition down_rate (service_capacity : Z) : Q :=
  (inject_Z service_capacity / 20)%Q.

(** Line 2745:
    [failure_rate = up_rate * 2 if utilization > 0.9 else up_rate * 0.5]. *)
Definition failure_rate (up_rate utilization : Q) : Q :=
  if Qgt_bool utilization (9 # 10) then (up_rate * 2)%Q
  else (up_rate * (1 # 2))%Q.

(** A matrix is a list of rows, as the [np.array] literal of lines 2754-2759. *)
Definition mat : Type := list (list Q).

Definition Q_matrix (up_rate down_rate failure_rate : Q) : mat :=
  [ [(- up_rate)%Q; up_rate; 0%Q; 0%Q];
    [down_rate; (- (up_rate + down_rate))%Q; up_rate; 0%Q];
    [0%Q; down_rate; (- (failure_rate + down_rate))%Q; failure_rate];
    [0%Q; 0%Q; 0%Q; 0%Q] ].

(** Lines 2528-2759 in sequence: from the two inputs to the matrix [Q]. *)
Definition build_Q (lambda_rate num_servers : Z) : py mat :=
  let mu := service_capacity num_servers in
  rho <- utilization lambda_rate mu ;;
  sf <- stress_factor rho ;;
  let u := up_rate lambda_rate sf in
  let d := down_rate mu in
  let f := failure_rate u rho in
  Ret (Q_matrix u d f).

(** Ranges of the two input widgets: the slider of lines 2504-2508 (10 to
    200 in steps of 5) and the number input of line 50 (at least 1). *)
Definition lambda_rate_ok (lambda_rate : Z) : Prop :=
  10 <= lambda_rate <= 200 /\ lambda_rate mod 5 = 0.
Definition num_servers_ok (num_servers : Z) : Prop := 1 <= num_servers.

(** Entry [(i, j)] of a matrix and the sum of a row. *)
Definition entry (M : mat) (i j : nat) : Q := nth j (nth i M []) 0%Q.
Definition row_sum (row : list Q) : Q := fold_right Qplus 0%Q row.

(** The properties the specification requires of a generator. *)
Definition rows_sum_to_zero (M : mat) : Prop :=
  forall row, In row M -> (row_sum row == 0)%Q.
Definition off_diagonal_nonneg (M : mat) : Prop :=
  forall i j, (i < 4)%nat -> (j < 4)%nat -> i <> j -> (0 <= entry M i j)%Q.
Definition diagonal_nonpos (M : mat) : Prop :=
  forall i, (i < 4)%nat -> (entry M i i <= 0)%Q.
Definition failure_absorbing (M : mat) : Prop :=
  forall j, (j < 4)%nat -> (entry M 3 j == 0)%Q.
Definition valid_generator (M : mat) : Prop :=
  rows_sum_to_zero M /\ off_diagonal_nonneg M /\ diagonal_nonpos M /\
  failure_absorbing M.

(** ** The transient solution *)

(** Line 2842: [P0 = np.array([1.0, 0.0, 0.0, 0.0])]. *)
Definition P0 : list Q := [1%Q; 0%Q; 0%Q; 0%Q].

(** [Q * t]: every entry multiplied by the scalar [t]. *)
Definition scale_mat (M : mat) (t : Q) : mat :=
  map (map (fun x => (x * t)%Q)) M.

(** Real 4x4 matrices, as functions of the two indices. *)
Definition Rmat : Type := nat -> nat -> R.

Definition Rmat_of (M : mat) : Rmat := fun i j => Q2R (entry M i j).

Definition sum4 (f : nat -> R) : R := (f 0%nat + f 1%nat + f 2%nat + f 3%nat)%R.

Definition Mmul (A B : Rmat) : Rmat :=
  fun i j => sum4 (fun k => (A i k * B k j)%R).

Definition Mid : Rmat := fun i j => if Nat.eqb i j then 1%R else 0%R.

Fixpoint Mpow (A : Rmat) (k : nat) : Rmat :=
  match k with
  | O => Mid
  | S k' => Mmul (Mpow A k') A
  end.

(** [scipy.linalg.expm(A)] computes the matrix exponential; it is modelled
    by what it approximates, the entrywise limit of the partial sums of
    the series of [A^k / k!]. *)
Definition expm_term (A : Rmat) (k : nat) : Rmat :=
  fun i j => (Mpow A k i j / INR (fact k))%R.

Definition expm_partial (A : Rmat) (N : nat) : Rmat :=
  fun i j => sum_f_R0 (fun k => expm_term A k i j) N.

Definition is_expm (A E : Rmat) : Prop :=
  forall i j, Un_cv (fun N => expm_partial A N i j) (E i j).

(** [v @ E]: a row vector times a matrix. *)
Definition vec_mat (v : list Q) (E : Rmat) : nat -> R :=
  fun j => sum4 (fun i => (Q2R (nth i v 0%Q) * E i j)%R).

(** Lines 2846 and 2964: [P_t = P0 @ expm(Q * t)]. *)
Definition is_P_t (Qm : mat) (P0 : list Q) (t : Q) (Pt : nat -> R) : Prop :=
  exists E, is_expm (Rmat_of (scale_mat Qm t)) E /\
            forall j, Pt j = vec_mat P0 E j.

(** Line 2950: [time_horizon = np.linspace(0, 5, 100)]. *)
Definition time_horizon : list Q :=
  map (fun i => (inject_Z (Z.of_nat i) * (5 / 99))%Q) (seq 0 100).

(** Lines 2956-2967: the four values appended for one time of the horizon;
    time zero is special-cased to the initial state. *)
Definition is_loop_point (Qm : mat) (t : Q) (Pt : nat -> R) : Prop :=
  if Qeq_bool t 0 then forall j, Pt j = Q2R (nth j P0 0%Q)
  else is_P_t Qm P0 t Pt.

(** [crash_probs] holds component 3 (Failure) of each point. *)
Definition is_crash_prob (Qm : mat) (t : Q) (p : R) : Prop :=
  exists Pt, is_loop_point Qm t Pt /\ p = Pt 3%nat.

Definition is_distribution (Pt : nat -> R) : Prop :=
  (forall j, (j < 4)%nat -> (0 <= Pt j)%R) /\ sum4 Pt = 1%R.

(** ** Exact evaluation of the partial sums on rational matrices *)

Definition tab4 (f : nat -> nat -> Q) : mat :=
  map (fun i => map (fun j => Qred (f i j)) (seq 0 4)) (seq 0 4).

Definition mmul (A B : mat) : mat :=
  tab4 (fun i j => (entry A i 0 * entry B 0 j + entry A i 1 * entry B 1 j
                    + entry A i 2 * entry B 2 j + entry A i 3 * entry B 3 j)%Q).

Definition madd (A B : mat) : mat :=
  tab4 (fun i j => (entry A i j + entry B i j)%Q).

Definition mscale (c : Q) (A : mat) : mat :=
  tab4 (fun i j => (c * entry A i j)%Q).

Definition mid : mat := tab4 (fun i j => if Nat.eqb i j then 1%Q else 0%Q).

(** [taylor A N] is the pair of the term [A^N / N!] and of the partial sum
    up to it. *)
Fixpoint taylor (A : mat) (N : nat) : mat * mat :=
  match N with
  | O => (mid, mid)
  | S N' =>
      let (term, total) := taylor A N' in
      let term' := mscale (1 / inject_Z (Z.of_nat N))%Q (mmul term A) in
      (term', madd total term')
  end.

(** The bound [c^k / k!] on the terms of the series. *)
Definition pow_fact (c : R) (k : nat) : R := (c ^ k / INR (fact k))%R.

(** Every entry of [M] is at most [a] in absolute value. *)
Definition all_entries_le (M : mat) (a : Q) : bool :=
  forallb (forallb (fun x => Qle_bool (Qabs x) a)) M.

(** [c^k / k!] on rationals. *)
Fixpoint pow_fact_q (c : Q) (k : nat) : Q :=
  match k with
  | O => 1%Q
  | S k' => Qred (pow_fact_q c k' * (c / inject_Z (Z.of_nat k)))%Q
  end.

(** The matrix built for 200 orders per hour on 25 servers. *)
Definition overload_Q : mat :=
  match build_Q 200 25 with
  | Ret M => M
  | Raise _ => []
  end.

(** The first two times of the horizon. *)
Definition t0 : Q := nth 0 time_horizon 0%Q.
Definition t1 : Q := nth 1 time_horizon 0%Q.

(** The remainder of the finite Cauchy product of two sequences. *)
Definition cauchy_rest (a b : nat -> R) (N : nat) : R :=
  sum_f_R0
    (fun k => sum_f_R0 (fun l => (a (S (l + k)) * b (N - l)%nat)%R)
                       (pred (N - k)))
    (pred N).

(** The partial sums of the Cauchy product of two sequences. *)
Definition cauchy_sum (a b : nat -> R) (N : nat) : R :=
  sum_f_R0 (fun k => sum_f_R0 (fun p => (a p * b (k - p)%nat)%R) k) N.

(** A real matrix multiplied by a scalar, and shifted by a multiple of the
    identity. *)
Definition Mscale (s : R) (A : Rmat) : Rmat := fun i j => (s * A i j)%R.

Definition Mshift (A : Rmat) (c : R) : Rmat :=
  fun i j => (A i j + c * Mid i j)%R.
(* ================================================================== *)
(** * Proofs for part 1 *)
(* ================================================================== *)

(** ** Binomial coefficients *)

Lemma choose_0_r : forall n, choose n 0 = 1.
Proof. destruct n; reflexivity. Qed.

Lemma choose_S_S : forall n k, choose (S n) (S k) = choose n k + choose n (S k).
Proof. reflexivity. Qed.

Lemma choose_nonneg : forall n k, 0 <= choose n k.
Proof.
  induction n as [|n IH]; intros [|k]; simpl; try lia.
  specialize (IH k) as H1. specialize (IH (S k)) as H2. lia.
Qed.

Lemma choose_gt : forall n k, (n < k)%nat -> choose n k = 0.
Proof.
  induction n as [|n IH]; intros [|k] Hk; simpl; try lia.
  rewrite (IH k), (IH (S k)) by lia. reflexivity.
Qed.

Lemma choose_pos : forall n k, (k <= n)%nat -> 0 < choose n k.
Proof.
  induction n as [|n IH]; intros [|k] Hk; simpl; try lia.
  specialize (IH k ltac:(lia)). pose proof (choose_nonneg n (S k)). lia.
Qed.

Lemma binom_nonneg : forall n k, 0 <= binom n k.
Proof.
  intros n k. unfold binom. destruct (_ || _); [lia | apply choose_nonneg].
Qed.

Lemma binom_neg_r : forall n k, k < 0 -> binom n k = 0.
Proof.
  intros n k Hk. unfold binom.
  assert (E : (k <? 0) = true) by (apply Z.ltb_lt; lia).
  rewrite E, orb_true_r. reflexivity.
Qed.

Lemma binom_0_r : forall n, 0 <= n -> binom n 0 = 1.
Proof.
  intros n Hn. unfold binom.
  assert (E : (n <? 0) = false) by (apply Z.ltb_ge; lia).
  rewrite E. simpl. apply choose_0_r.
Qed.

Lemma binom_pos : forall n k, 0 <= k <= n -> 0 < binom n k.
Proof.
  intros n k Hk. unfold binom.
  assert (E1 : (n <? 0) = false) by (apply Z.ltb_ge; lia).
  assert (E2 : (k <? 0) = false) by (apply Z.ltb_ge; lia).
  rewrite E1, E2. simpl. apply choose_pos. lia.
Qed.

(** Pascal's rule, valid for every integer [k] once [0 <= n]. *)
Lemma binom_pascal : forall n k, 0 <= n ->
  binom (n + 1) k = binom n k + binom n (k - 1).
Proof.
  intros n k Hn.
  destruct (Z_lt_le_dec k 0) as [Hk | Hk].
  - rewrite !binom_neg_r by lia. reflexivity.
  - destruct (Z.eq_dec k 0) as [-> | Hk0].
    + rewrite !binom_0_r by lia. rewrite binom_neg_r by lia. reflexivity.
    + unfold binom.
      assert (E1 : (n <? 0) = false) by (apply Z.ltb_ge; lia).
      assert (E2 : (n + 1 <? 0) = false) by (apply Z.ltb_ge; lia).
      assert (E3 : (k <? 0) = false) by (apply Z.ltb_ge; lia).
      assert (E4 : (k - 1 <? 0) = false) by (apply Z.ltb_ge; lia).
      rewrite E1, E2, E3, E4. simpl.
      replace (Z.to_nat (n + 1)) with (S (Z.to_nat n)) by lia.
      replace (Z.to_nat k) with (S (Z.to_nat (k - 1))) by lia.
      rewrite choose_S_S. lia.
Qed.

(** ** Integer sums *)


Lemma sum_upto_ratio : forall (a : Z -> Z) (d : Z) c,
  (sum_upto (fun j => inject_Z (a j) / inject_Z d) c
   == inject_Z (zsum_upto a c) / inject_Z d)%Q.
Proof.
  intros a d c. induction c as [|c IH].
  - simpl. reflexivity.
  - cbn [sum_upto zsum_upto]. rewrite IH, inject_Z_plus.
    unfold Qdiv. ring.
Qed.


(** Moving one item from the unmarked to the marked side removes exactly
    the samples counted by the right-hand side. *)
Lemma hg_num_step : forall m g n c, 0 <= m -> 0 <= g ->
  hg_num m (g + 1) n c - hg_num (m + 1) g n c
  = binom m (Z.of_nat c) * binom g (n - Z.of_nat c - 1).
Proof.
  intros m g n c Hm Hg. unfold hg_num.
  induction c as [|c IH].
  - cbn [zsum_upto Z.of_nat].
    rewrite (binom_pascal g (n - 0) Hg), !binom_0_r by lia. ring.
  - cbn [zsum_upto].
    set (j := Z.of_nat (S c)) in *.
    assert (Ej : Z.of_nat c = j - 1) by (subst j; lia).
    rewrite Ej in IH.
    rewrite (binom_pascal g (n - j) Hg), (binom_pascal m j Hm).
    replace (n - (j - 1) - 1) with (n - j) in IH by lia.
    lia.
Qed.

Lemma hg_num_antitone_step : forall m g n c, 0 <= m -> 0 <= g ->
  hg_num (m + 1) g n c <= hg_num m (g + 1) n c.
Proof.
  intros m g n c Hm Hg.
  pose proof (hg_num_step m g n c Hm Hg) as H.
  pose proof (binom_nonneg m (Z.of_nat c)).
  pose proof (binom_nonneg g (n - Z.of_nat c - 1)).
  nia.
Qed.

(** With the population [N] fixed, more marked items never increase the
    count of acceptable samples. *)
Lemma hg_num_antitone : forall N n c (d : nat) m,
  0 <= m -> m + Z.of_nat d <= N ->
  hg_num (m + Z.of_nat d) (N - (m + Z.of_nat d)) n c <= hg_num m (N - m) n c.
Proof.
  intros N n c d. induction d as [|d IH]; intros m Hm HN.
  - replace (m + Z.of_nat 0) with m by lia. lia.
  - specialize (IH m Hm ltac:(lia)).
    pose proof (hg_num_antitone_step (m + Z.of_nat d) (N - (m + Z.of_nat (S d))) n c
                  ltac:(lia) ltac:(lia)) as H.
    replace (m + Z.of_nat d + 1) with (m + Z.of_nat (S d)) in H by lia.
    replace (N - (m + Z.of_nat (S d)) + 1) with (N - (m + Z.of_nat d)) in H by lia.
    lia.
Qed.

(** ** Truncation and clamping *)

Lemma Qmult_le_l_nonneg : forall x y z : Q,
  (0 <= z)%Q -> (x <= y)%Q -> (z * x <= z * y)%Q.
Proof.
  intros x y z Hz H. rewrite (Qmult_comm z x), (Qmult_comm z y).
  apply Qmult_le_compat_r; assumption.
Qed.

Lemma inject_Z_nonneg : forall z, 0 <= z -> (0 <= inject_Z z)%Q.
Proof. intros z Hz. change 0%Q with (inject_Z 0). rewrite <- Zle_Qle. exact Hz. Qed.

Lemma py_int_mono : forall x y : Q, (x <= y)%Q -> py_int x <= py_int y.
Proof.
  intros [a b] [c d] H. unfold Qle in H. unfold py_int. simpl in *.
  rewrite <- (Z.quot_mul_cancel_r a (Z.pos b) (Z.pos d)) by lia.
  rewrite <- (Z.quot_mul_cancel_r c (Z.pos d) (Z.pos b)) by lia.
  replace (Z.pos d * Z.pos b) with (Z.pos b * Z.pos d) by ring.
  apply Z.quot_le_mono; lia.
Qed.

Lemma py_int_inject_Z : forall z, py_int (inject_Z z) = z.
Proof. intros z. unfold py_int. simpl. apply Z.quot_1_r. Qed.

Lemma py_int_nonneg : forall x : Q, (0 <= x)%Q -> 0 <= py_int x.
Proof.
  intros x Hx. change 0 with (py_int 0). apply py_int_mono. exact Hx.
Qed.

Lemma py_int_scale_le : forall (N : Z) (r : Q),
  0 <= N -> (r <= 1)%Q -> py_int (inject_Z N * r) <= N.
Proof.
  intros N r HN Hr. rewrite <- (py_int_inject_Z N) at 2.
  apply py_int_mono.
  setoid_replace (inject_Z N) with (inject_Z N * 1)%Q at 2 by ring.
  apply Qmult_le_l_nonneg; [|exact Hr].
  apply inject_Z_nonneg. exact HN.
Qed.

(** ** Rounding to the nearest double *)

Lemma pow2_pos : forall e, (0 < pow2 e)%Q.
Proof. intros e. apply Qpower_0_lt. reflexivity. Qed.

Lemma pow2_le : forall e e', e <= e' -> (pow2 e <= pow2 e')%Q.
Proof. intros e e' H. apply Qpower_le_compat_l; [exact H | discriminate]. Qed.

Lemma pow2_lt : forall e e', e < e' -> (pow2 e < pow2 e')%Q.
Proof. intros e e' H. apply Qpower_lt_compat_l; [exact H | reflexivity]. Qed.

Lemma pow2_plus : forall a b, (pow2 (a + b) == pow2 a * pow2 b)%Q.
Proof. intros a b. apply Qpower_plus. discriminate. Qed.

Lemma pow2_inject : forall n, 0 <= n -> (inject_Z (2 ^ n) == pow2 n)%Q.
Proof. intros n Hn. unfold pow2. rewrite Zpower_Qpower by exact Hn. reflexivity. Qed.

(** A positive rational lies in the binade its exponent names. *)
Lemma binade_spec : forall x : Q, (0 < x)%Q ->
  (pow2 (binade x) <= x)%Q /\ (x < pow2 (binade x + 1))%Q.
Proof.
  intros [a b] Hx.
  assert (Ha : 0 < a) by (unfold Qlt in Hx; simpl in Hx; lia).
  unfold binade. cbn [Qnum Qden].
  set (la := Z.log2 a). set (lb := Z.log2 (Z.pos b)).
  destruct (Z.log2_spec a Ha) as [A1 A2]. fold la in A1, A2.
  destruct (Z.log2_spec (Z.pos b) ltac:(lia)) as [B1 B2]. fold lb in B1, B2.
  assert (La : 0 <= la) by apply Z.log2_nonneg.
  assert (Lb : 0 <= lb) by apply Z.log2_nonneg.
  assert (Xq : (a # b == inject_Z a / inject_Z (Z.pos b))%Q) by apply Qmake_Qdiv.
  assert (Pb : (0 < inject_Z (Z.pos b))%Q) by reflexivity.
  assert (QA1 : (pow2 la <= inject_Z a)%Q)
    by (rewrite <- pow2_inject by lia; rewrite <- Zle_Qle; exact A1).
  assert (QA2 : (inject_Z a < pow2 (la + 1))%Q).
  { rewrite <- pow2_inject by lia. rewrite <- Zlt_Qlt.
    replace (la + 1) with (Z.succ la) by lia. exact A2. }
  assert (QB1 : (pow2 lb <= inject_Z (Z.pos b))%Q)
    by (rewrite <- pow2_inject by lia; rewrite <- Zle_Qle; exact B1).
  assert (QB2 : (inject_Z (Z.pos b) < pow2 (lb + 1))%Q).
  { rewrite <- pow2_inject by lia. rewrite <- Zlt_Qlt.
    replace (lb + 1) with (Z.succ lb) by lia. exact B2. }
  (* the two outer bounds *)
  assert (Up : (a # b < pow2 (la - lb + 1))%Q).
  { rewrite Xq. apply Qlt_shift_div_r; [exact Pb|].
    apply Qlt_le_trans with (pow2 (la + 1)); [exact QA2|].
    replace (la + 1) with ((la - lb + 1) + lb) by lia. rewrite pow2_plus.
    apply Qmult_le_l; [apply pow2_pos | exact QB1]. }
  assert (Lo : (pow2 (la - lb - 1) < a # b)%Q).
  { rewrite Xq. apply Qlt_shift_div_l; [exact Pb|].
    apply Qlt_le_trans with (pow2 (la - lb - 1) * pow2 (lb + 1))%Q.
    - apply Qmult_lt_l; [apply pow2_pos | exact QB2].
    - rewrite <- pow2_plus. replace (la - lb - 1 + (lb + 1)) with la by lia.
      exact QA1. }
  destruct (Qle_bool (pow2 (la - lb)) (a # b)) eqn:E.
  - apply Qle_bool_iff in E. split; [exact E | exact Up].
  - split; [apply Qlt_le_weak; exact Lo|].
    replace (la - lb - 1 + 1) with (la - lb) by lia.
    apply Qnot_le_lt. intros C. apply Qle_bool_iff in C. congruence.
Qed.

Lemma binade_mono : forall x y : Q, (0 < x)%Q -> (x <= y)%Q -> binade x <= binade y.
Proof.
  intros x y Hx Hxy.
  destruct (binade_spec x Hx) as [X1 _].
  destruct (binade_spec y ltac:(lra)) as [_ Y2].
  destruct (Z_le_gt_dec (binade x) (binade y)) as [H | H]; [exact H|].
  exfalso. pose proof (pow2_le (binade y + 1) (binade x) ltac:(lia)). lra.
Qed.

Lemma binade_unique : forall (x : Q) e,
  (pow2 e <= x)%Q -> (x < pow2 (e + 1))%Q -> binade x = e.
Proof.
  intros x e H1 H2.
  assert (Hx : (0 < x)%Q) by (pose proof (pow2_pos e); lra).
  destruct (binade_spec x Hx) as [B1 B2].
  destruct (Z_lt_le_dec (binade x) e) as [L | L].
  - pose proof (pow2_le (binade x + 1) e ltac:(lia)). lra.
  - destruct (Z_lt_le_dec e (binade x)) as [G | G]; [|lia].
    pose proof (pow2_le (e + 1) (binade x) ltac:(lia)). lra.
Qed.

(** Rounding to the nearest integer is monotone and fixes the integers. *)
Lemma py_round_bounds : forall x : Q,
  Qfloor x <= py_round x <= Qfloor x + 1.
Proof.
  intros x. unfold py_round.
  destruct (x - inject_Z (Qfloor x) ?= 1 # 2)%Q; [destruct (Z.even (Qfloor x))| |]; lia.
Qed.

Lemma py_round_mono : forall x y : Q, (x <= y)%Q -> py_round x <= py_round y.
Proof.
  intros x y H.
  pose proof (Qfloor_resp_le x y H) as F.
  pose proof (py_round_bounds x). pose proof (py_round_bounds y).
  destruct (Z.eq_dec (Qfloor x) (Qfloor y)) as [E | NE]; [|lia].
  unfold py_round. rewrite <- E.
  set (f := Qfloor x) in *.
  assert (R : (x - inject_Z f <= y - inject_Z f)%Q) by lra.
  assert (Cx := Qcompare_spec (x - inject_Z f) (1 # 2)).
  assert (Cy := Qcompare_spec (y - inject_Z f) (1 # 2)).
  destruct Cx as [Cx | Cx | Cx]; destruct Cy as [Cy | Cy | Cy];
    try (destruct (Z.even f)); try lia; exfalso; lra.
Qed.

Lemma py_round_inject_Z : forall z : Z, py_round (inject_Z z) = z.
Proof.
  intros z. unfold py_round. rewrite Qfloor_Z.
  assert (E : (inject_Z z - inject_Z z ?= 1 # 2)%Q = Lt).
  { apply Qlt_alt. unfold Qminus. rewrite Qplus_opp_r. reflexivity. }
  rewrite E. reflexivity.
Qed.

Lemma py_round_eq_inject : forall (x : Q) (z : Z), (x == inject_Z z)%Q -> py_round x = z.
Proof.
  intros x z H.
  assert (A : py_round x <= py_round (inject_Z z)) by (apply py_round_mono; lra).
  assert (B : py_round (inject_Z z) <= py_round x) by (apply py_round_mono; lra).
  rewrite py_round_inject_Z in A, B. lia.
Qed.

Lemma fl_zero : forall x : Q, (x == 0)%Q -> fl x = 0%Q.
Proof.
  intros x H. unfold fl.
  destruct (Qcompare_spec x 0) as [C | C | C]; [reflexivity | exfalso; lra | exfalso; lra].
Qed.

Lemma fl_pos_eq : forall x : Q, (0 < x)%Q ->
  fl x = (inject_Z (py_round (x / ulp x)) * ulp x)%Q.
Proof.
  intros x H. unfold fl.
  destruct (Qcompare_spec x 0) as [C | C | C]; [exfalso; lra | exfalso; lra | reflexivity].
Qed.

Lemma fl_neg_eq : forall x : Q, (x < 0)%Q ->
  fl x = (- (inject_Z (py_round (- x / ulp (- x))) * ulp (- x)))%Q.
Proof.
  intros x H. unfold fl.
  destruct (Qcompare_spec x 0) as [C | C | C]; [exfalso; lra | reflexivity | exfalso; lra].
Qed.

Lemma ulp_pos : forall x, (0 < ulp x)%Q.
Proof. intros x. apply pow2_pos. Qed.

(** A positive number rounds into the closure of its binade. *)
Lemma fl_pos_bounds : forall x : Q, (0 < x)%Q ->
  let e := Z.max (binade x) (-1022) in
  (0 <= fl x)%Q /\ (fl x <= pow2 (e + 1))%Q /\
  (-1022 <= binade x -> (pow2 e <= fl x)%Q).
Proof.
  intros x Hx e. rewrite (fl_pos_eq x Hx).
  destruct (binade_spec x Hx) as [B1 B2].
  unfold ulp. fold e. set (u := pow2 (e - 52)).
  assert (Hu : (0 < u)%Q) by apply pow2_pos.
  assert (Y0 : (0 <= x / u)%Q) by (apply Qle_shift_div_l; [exact Hu | lra]).
  assert (Y1 : (x / u <= inject_Z (2 ^ 53))%Q).
  { apply Qle_shift_div_r; [exact Hu|]. rewrite pow2_inject by lia.
    subst u. rewrite <- pow2_plus. replace (53 + (e - 52)) with (e + 1) by lia.
    apply Qle_trans with (pow2 (binade x + 1)); [lra|].
    apply pow2_le. lia. }
  assert (R0 : 0 <= py_round (x / u)).
  { rewrite <- (py_round_inject_Z 0). apply py_round_mono. exact Y0. }
  assert (R1 : py_round (x / u) <= 2 ^ 53).
  { rewrite <- (py_round_inject_Z (2 ^ 53)). apply py_round_mono. exact Y1. }
  split; [|split].
  - apply Qmult_le_0_compat; [apply inject_Z_nonneg; exact R0 | lra].
  - apply Qle_trans with (inject_Z (2 ^ 53) * u)%Q.
    + apply Qmult_le_compat_r; [rewrite <- Zle_Qle; exact R1 | lra].
    + rewrite pow2_inject by lia. subst u. rewrite <- pow2_plus.
      replace (53 + (e - 52)) with (e + 1) by lia. apply Qle_refl.
  - intros He. assert (Ee : e = binade x) by lia.
    assert (Y2 : (inject_Z (2 ^ 52) <= x / u)%Q).
    { apply Qle_shift_div_l; [exact Hu|]. rewrite pow2_inject by lia.
      subst u. rewrite <- pow2_plus. replace (52 + (e - 52)) with e by lia.
      rewrite Ee. exact B1. }
    assert (R2 : 2 ^ 52 <= py_round (x / u)).
    { rewrite <- (py_round_inject_Z (2 ^ 52)). apply py_round_mono. exact Y2. }
    apply Qle_trans with (inject_Z (2 ^ 52) * u)%Q.
    + rewrite pow2_inject by lia. subst u. rewrite <- pow2_plus.
      replace (52 + (e - 52)) with e by lia. apply Qle_refl.
    + apply Qmult_le_compat_r; [rewrite <- Zle_Qle; exact R2 | lra].
Qed.

Lemma fl_mono_pos : forall x y : Q, (0 < x)%Q -> (x <= y)%Q -> (fl x <= fl y)%Q.
Proof.
  intros x y Hx Hxy.
  assert (Hy : (0 < y)%Q) by lra.
  pose proof (binade_mono x y Hx Hxy) as Bm.
  set (ex := Z.max (binade x) (-1022)). set (ey := Z.max (binade y) (-1022)).
  destruct (Z.eq_dec ex ey) as [E | NE].
  - rewrite (fl_pos_eq x Hx), (fl_pos_eq y Hy). unfold ulp.
    fold ex ey. rewrite <- E. set (u := pow2 (ex - 52)).
    assert (Hu : (0 < u)%Q) by apply pow2_pos.
    apply Qmult_le_compat_r; [|lra].
    rewrite <- Zle_Qle. apply py_round_mono.
    unfold Qdiv. apply Qmult_le_compat_r; [exact Hxy|].
    apply Qlt_le_weak. apply Qinv_lt_0_compat. exact Hu.
  - assert (L : ex < ey) by (subst ex ey; lia).
    destruct (fl_pos_bounds x Hx) as (_ & Ux & _). fold ex in Ux.
    destruct (fl_pos_bounds y Hy) as (_ & _ & Ly). fold ey in Ly.
    specialize (Ly ltac:(subst ex ey; lia)).
    pose proof (pow2_le (ex + 1) ey ltac:(lia)). lra.
Qed.

Lemma fl_nonneg : forall x : Q, (0 <= x)%Q -> (0 <= fl x)%Q.
Proof.
  intros x Hx. destruct (Qeq_dec x 0) as [E | NE].
  - rewrite (fl_zero x E). apply Qle_refl.
  - apply (fl_pos_bounds x). destruct (Qlt_le_dec 0 x) as [H | H]; [exact H|].
    exfalso. apply NE. lra.
Qed.

Lemma fl_nonpos : forall x : Q, (x <= 0)%Q -> (fl x <= 0)%Q.
Proof.
  intros x Hx. destruct (Qeq_dec x 0) as [E | NE].
  - rewrite (fl_zero x E). apply Qle_refl.
  - assert (H : (x < 0)%Q).
    { destruct (Qlt_le_dec x 0) as [H | H]; [exact H|]. exfalso. apply NE. lra. }
    assert (P : (0 < - x)%Q) by lra.
    pose proof (fl_pos_bounds (- x) P) as (N & _).
    rewrite (fl_pos_eq _ P) in N. rewrite (fl_neg_eq x H). lra.
Qed.

(** Rounding to the nearest double is monotone. *)
Lemma fl_mono : forall x y : Q, (x <= y)%Q -> (fl x <= fl y)%Q.
Proof.
  intros x y Hxy.
  destruct (Qlt_le_dec 0 x) as [Hx | Hx].
  - apply fl_mono_pos; assumption.
  - destruct (Qlt_le_dec y 0) as [Hy | Hy].
    + assert (Px : (0 < - x)%Q) by lra. assert (Py : (0 < - y)%Q) by lra.
      pose proof (fl_mono_pos (- y) (- x) Py ltac:(lra)) as M.
      rewrite (fl_pos_eq _ Px), (fl_pos_eq _ Py) in M.
      rewrite (fl_neg_eq x ltac:(lra)), (fl_neg_eq y Hy). lra.
    + apply Qle_trans with 0%Q; [apply fl_nonpos; exact Hx | apply fl_nonneg; exact Hy].
Qed.

Lemma py_round_le_double : forall y : Q, (0 <= y)%Q -> (inject_Z (py_round y) <= 2 * y)%Q.
Proof.
  intros y Hy.
  assert (F0 : 0 <= Qfloor y).
  { change 0 with (Qfloor 0). apply Qfloor_resp_le. exact Hy. }
  pose proof (Qfloor_le y) as F1.
  assert (Q0 : (0 <= inject_Z (Qfloor y))%Q) by (apply inject_Z_nonneg; exact F0).
  unfold py_round.
  destruct (Qcompare_spec (y - inject_Z (Qfloor y)) (1 # 2)) as [C | C | C].
  - destruct (Z.even (Qfloor y)); [lra|].
    rewrite inject_Z_plus. change (inject_Z 1) with 1%Q. lra.
  - lra.
  - rewrite inject_Z_plus. change (inject_Z 1) with 1%Q. lra.
Qed.

(** Rounding at most doubles a non-negative number. *)
Lemma fl_le_double : forall x : Q, (0 <= x)%Q -> (fl x <= 2 * x)%Q.
Proof.
  intros x Hx. destruct (Qeq_dec x 0) as [E | NE].
  - rewrite (fl_zero x E). lra.
  - assert (P : (0 < x)%Q).
    { destruct (Qlt_le_dec 0 x) as [H | H]; [exact H|]. exfalso. apply NE. lra. }
    rewrite (fl_pos_eq x P). pose proof (ulp_pos x) as Hu.
    assert (Y : (0 <= x / ulp x)%Q) by (apply Qle_shift_div_l; [exact Hu | lra]).
    pose proof (py_round_le_double _ Y) as R.
    apply Qle_trans with (2 * (x / ulp x) * ulp x)%Q.
    + apply Qmult_le_compat_r; [exact R | lra].
    + apply Qle_lteq. right. field. lra.
Qed.

(** ** The defect count along the OC grid *)

Lemma py_int_le_self : forall x : Q, (0 <= x)%Q -> (inject_Z (py_int x) <= x)%Q.
Proof.
  intros [a b] H. unfold Qle in H. simpl in H.
  unfold py_int, Qle. simpl.
  pose proof (Z.mul_quot_le a (Z.pos b) ltac:(lia) ltac:(lia)). lia.
Qed.

Lemma py_int_lt_succ : forall x : Q, (0 <= x)%Q -> (x < inject_Z (py_int x) + 1)%Q.
Proof.
  intros [a b] H. unfold Qle in H. simpl in H.
  rewrite <- (inject_Z_plus _ 1). unfold py_int, Qlt. simpl.
  pose proof (Z.mul_succ_quot_gt a (Z.pos b) ltac:(lia) ltac:(lia)). lia.
Qed.

Lemma M_sim_range : forall N p, 0 <= N -> 0 <= M_sim N p <= N.
Proof. intros N p HN. unfold M_sim. lia. Qed.

Lemma float_of_int_nonneg : forall N, 0 <= N -> (0 <= float_of_int N)%Q.
Proof.
  intros N HN. unfold float_of_int. apply fl_nonneg. apply inject_Z_nonneg. exact HN.
Qed.

Lemma M_sim_mono : forall N p p', 0 <= N -> (p <= p')%Q -> M_sim N p <= M_sim N p'.
Proof.
  intros N p p' HN Hp. unfold M_sim, fmul.
  assert (py_int (fl (float_of_int N * p)) <= py_int (fl (float_of_int N * p'))).
  { apply py_int_mono. apply fl_mono. apply Qmult_le_l_nonneg; [|exact Hp].
    apply float_of_int_nonneg. exact HN. }
  lia.
Qed.

(** The grid of defect rates: its entries and their order. *)
Lemma defect_rates_nth : forall i, (i < 99)%nat ->
  nth_error defect_rates i
  = Some (fadd (fmul (float_of_int (Z.of_nat i))
                     (fdiv (fsub (fl (1 # 5)) 0) (float_of_int 99))) 0).
Proof.
  intros i Hi. unfold defect_rates, linspace_double.
  rewrite nth_error_app1 by (rewrite length_map, length_seq; simpl; exact Hi).
  rewrite nth_error_map, nth_error_seq.
  assert (E : (i <? 100 - 1)%nat = true) by (apply Nat.ltb_lt; simpl; lia).
  rewrite E. reflexivity.
Qed.

Lemma defect_rates_last : nth_error defect_rates 99 = Some (fl (1 # 5)).
Proof. reflexivity. Qed.

Lemma defect_rates_step_nonneg :
  (0 <= fdiv (fsub (fl (1 # 5)) 0) (float_of_int 99))%Q.
Proof. apply fl_nonneg. vm_compute. discriminate. Qed.

Lemma defect_rates_step_top :
  (inject_Z 98 * fdiv (fsub (fl (1 # 5)) 0) (float_of_int 99) <= 1 # 5)%Q.
Proof. vm_compute. discriminate. Qed.

Lemma float_of_int_small : forall i : nat, (i <= 100)%nat ->
  (float_of_int (Z.of_nat i) <= inject_Z 100)%Q /\ (0 <= float_of_int (Z.of_nat i))%Q.
Proof.
  intros i Hi. split; [|apply float_of_int_nonneg; lia].
  apply Qle_trans with (fl (inject_Z 100)).
  - unfold float_of_int. apply fl_mono. rewrite <- Zle_Qle. lia.
  - vm_compute. discriminate.
Qed.

Lemma defect_rates_ordered : forall i j, (i <= j < 100)%nat ->
  exists p p', nth_error defect_rates i = Some p /\
               nth_error defect_rates j = Some p' /\ (p <= p')%Q.
Proof.
  intros i j Hij.
  set (step := fdiv (fsub (fl (1 # 5)) 0) (float_of_int 99)).
  assert (Hs : (0 <= step)%Q) by exact defect_rates_step_nonneg.
  assert (G : forall a b : nat, (a <= b)%nat ->
            (fadd (fmul (float_of_int (Z.of_nat a)) step) 0
             <= fadd (fmul (float_of_int (Z.of_nat b)) step) 0)%Q).
  { intros a b Hab. unfold fadd, fmul. apply fl_mono.
    apply Qplus_le_l. apply fl_mono. apply Qmult_le_compat_r; [|exact Hs].
    unfold float_of_int. apply fl_mono. rewrite <- Zle_Qle. lia. }
  destruct (Nat.eq_dec j 99) as [Ej | Nj].
  - subst j. destruct (Nat.eq_dec i 99) as [Ei | Ni].
    + subst i. exists (fl (1 # 5)), (fl (1 # 5)).
      split; [exact defect_rates_last|]. split; [exact defect_rates_last|].
      apply Qle_refl.
    + eexists. exists (fl (1 # 5)).
      split; [apply defect_rates_nth; lia|]. split; [exact defect_rates_last|].
      fold step. apply Qle_trans with (fadd (fmul (float_of_int 98) step) 0).
      * apply (G i 98%nat). lia.
      * vm_compute. discriminate.
  - eexists. eexists.
    split; [apply defect_rates_nth; lia|]. split; [apply defect_rates_nth; lia|].
    fold step. apply G. lia.
Qed.

(** ** The cumulative probability as one fraction *)

Lemma hypergeom_argcheck_true : forall M n N,
  0 < M -> 0 <= n <= M -> 0 <= N <= M -> hypergeom_argcheck M n N = true.
Proof.
  intros M n N HM Hn HN. unfold hypergeom_argcheck.
  rewrite !andb_true_iff, Z.ltb_lt, !Z.leb_le. lia.
Qed.

Lemma hypergeom_argcheck_false : forall M n N,
  M < n \/ M < N -> hypergeom_argcheck M n N = false.
Proof.
  intros M n N H. unfold hypergeom_argcheck.
  apply not_true_is_false. rewrite !andb_true_iff, Z.ltb_lt, !Z.leb_le. lia.
Qed.

Lemma hypergeom_cdf_fraction : forall k M n N,
  0 <= k -> hypergeom_argcheck M n N = true ->
  exists q, hypergeom_cdf k M n N = Fin q /\
    (q == inject_Z (hg_num n (M - n) N (Z.to_nat k)) / inject_Z (binom M N))%Q.
Proof.
  intros k M n N Hk Hc. unfold hypergeom_cdf. rewrite Hc.
  assert (E : (k <? 0) = false) by (apply Z.ltb_ge; lia). rewrite E.
  eexists. split; [reflexivity|].
  unfold hypergeom_pmf, hg_num.
  apply (sum_upto_ratio (fun j => binom n j * binom (M - n) (N - j))).
Qed.

Lemma Qdiv_le_same_den : forall a b d : Z,
  0 < d -> a <= b -> (inject_Z a / inject_Z d <= inject_Z b / inject_Z d)%Q.
Proof.
  intros a b d Hd Hab.
  apply Qmult_le_compat_r.
  - rewrite <- Zle_Qle. exact Hab.
  - apply Qinv_le_0_compat. change 0%Q with (inject_Z 0).
    rewrite <- Zle_Qle. lia.
Qed.

(** The cumulative probability is non-increasing in the number of marked
    items (scipy's [n]) for a fixed population and number of draws. *)
Lemma hypergeom_cdf_antitone : forall k M N n n',
  0 < M -> 0 <= N <= M -> 0 <= k -> 0 <= n <= n' -> n' <= M ->
  exists q q',
    hypergeom_cdf k M n N = Fin q /\ hypergeom_cdf k M n' N = Fin q' /\
    (q' <= q)%Q.
Proof.
  intros k M N n n' HM HN Hk Hn Hn'.
  destruct (hypergeom_cdf_fraction k M n N Hk) as (q & Eq & Vq).
  { apply hypergeom_argcheck_true; lia. }
  destruct (hypergeom_cdf_fraction k M n' N Hk) as (q' & Eq' & Vq').
  { apply hypergeom_argcheck_true; lia. }
  exists q, q'. split; [exact Eq|]. split; [exact Eq'|].
  rewrite Vq, Vq'.
  apply Qdiv_le_same_den.
  - apply binom_pos. lia.
  - pose proof (hg_num_antitone M N (Z.to_nat k) (Z.to_nat (n' - n)) n
                  ltac:(lia) ltac:(lia)) as H.
    replace (n + Z.of_nat (Z.to_nat (n' - n))) with n' in H by lia.
    exact H.
Qed.

(** ** C4 *)

(** C4. For a fixed plan [(N, n, c)] with [0 <= n <= N] and [0 <= c <= n]
    (and a non-empty batch, which the batch-size widget guarantees),
    [acceptProbability] is a number for every [0 <= M <= N] and does not
    increase when [M] grows; consequently the OC curve does not increase
    with the defect rate, both between arbitrary rates and between the
    entries of [probs_accept] in grid order. *)
Theorem acceptProbability_antitone_in_M :
  forall N n c : Z, 0 < N -> 0 <= n <= N -> 0 <= c <= n ->
    (forall M M', 0 <= M <= M' -> M' <= N ->
       exists q q',
         acceptProbability N M n c = Ret (Fin q) /\
         acceptProbability N M' n c = Ret (Fin q') /\ (q' <= q)%Q)
    /\
    (forall p p' : Q, (p <= p')%Q ->
       exists q q',
         oc_point c N n p = Fin q /\ oc_point c N n p' = Fin q' /\ (q' <= q)%Q)
    /\
    (forall i j : nat, (i <= j < 100)%nat ->
       exists q q',
         nth_error (probs_accept c N n) i = Some (Fin q) /\
         nth_error (probs_accept c N n) j = Some (Fin q') /\ (q' <= q)%Q).
Proof.
  intros N n c HN Hn Hc.
  assert (OC : forall p p' : Q, (p <= p')%Q ->
       exists q q',
         oc_point c N n p = Fin q /\ oc_point c N n p' = Fin q' /\ (q' <= q)%Q).
  { intros p p' Hp. unfold oc_point.
    pose proof (M_sim_range N p ltac:(lia)).
    pose proof (M_sim_range N p' ltac:(lia)).
    pose proof (M_sim_mono N p p' ltac:(lia) Hp).
    apply hypergeom_cdf_antitone; lia. }
  split; [|split].
  - intros M M' HM HM'. unfold acceptProbability, prob_accept.
    destruct (hypergeom_cdf_antitone c N n M M' HN Hn ltac:(lia) HM HM')
      as (q & q' & E & E' & Hq).
    exists q, q'. rewrite E, E'. auto.
  - exact OC.
  - intros i j Hij. unfold probs_accept. rewrite !nth_error_map.
    destruct (defect_rates_ordered i j Hij) as (p & p' & Ei & Ej & Hp).
    rewrite Ei, Ej. cbn [option_map].
    destruct (OC p p' Hp) as (q & q' & E & E' & Hq).
    exists q, q'. rewrite E, E'. auto.
Qed.

Lemma acceptProbability_antitone_in_M_witness :
  exists q q',
    acceptProbability 1000 20 100 0 = Ret (Fin q) /\
    acceptProbability 1000 50 100 0 = Ret (Fin q') /\ (q' <= q)%Q.
Proof.
  apply (proj1 (acceptProbability_antitone_in_M 1000 100 0
                  ltac:(lia) ltac:(lia) ltac:(lia)) 20 50); lia.
Defined.

(** ** C5: the default plan *)


Lemma zfact_pos : forall n, 0 < zfact n.
Proof. induction n as [|n IH]; cbn [zfact]; lia. Qed.

Lemma choose_zfact : forall n k, (k <= n)%nat ->
  choose n k * zfact k * zfact (n - k) = zfact n.
Proof.
  induction n as [|n IH]; intros k Hk.
  - assert (k = 0%nat) by lia. subst k. reflexivity.
  - destruct k as [|k].
    + rewrite choose_0_r, Nat.sub_0_r. cbn [zfact]. ring.
    + rewrite choose_S_S. replace (S n - S k)%nat with (n - k)%nat by lia.
      pose proof (IH k ltac:(lia)) as H1.
      destruct (Nat.eq_dec k n) as [-> | Hne].
      * rewrite (choose_gt n (S n)) by lia.
        rewrite Nat.sub_diag in *. cbn [zfact] in *.
        rewrite <- H1 at 2. ring.
      * pose proof (IH (S k) ltac:(lia)) as H2.
        replace (n - k)%nat with (S (n - S k)) in * by lia.
        change (zfact (S n)) with (Z.of_nat (S n) * zfact n).
        change (zfact (S k)) with (Z.of_nat (S k) * zfact k) in *.
        change (zfact (S (n - S k)))
          with (Z.of_nat (S (n - S k)) * zfact (n - S k)) in *.
        replace (Z.of_nat (S n))
          with (Z.of_nat (S k) + Z.of_nat (S (n - S k))) by lia.
        transitivity
          (Z.of_nat (S k)
             * (choose n k * zfact k
                  * (Z.of_nat (S (n - S k)) * zfact (n - S k)))
           + Z.of_nat (S (n - S k))
             * (choose n (S k) * (Z.of_nat (S k) * zfact k)
                  * zfact (n - S k))); [ring|].
        rewrite H1, H2. ring.
Qed.

Lemma zfact_zfall : forall k n, (k <= n)%nat ->
  zfact n = zfall (Z.of_nat n) k * zfact (n - k).
Proof.
  induction k as [|k IH]; intros n Hk.
  - rewrite Nat.sub_0_r. cbn [zfall]. ring.
  - destruct n as [|n]; [lia|].
    cbn [zfact zfall]. rewrite (IH n) by lia.
    replace (Z.of_nat (S n) - 1) with (Z.of_nat n) by lia.
    replace (S n - S k)%nat with (n - k)%nat by lia. ring.
Qed.

(** Removing [d] items from the population rescales a binomial
    coefficient by a quotient of falling products. *)
Lemma choose_ratio_fall : forall n k d, (k + d <= n)%nat ->
  choose n k * zfall (Z.of_nat (n - k)) d
  = zfall (Z.of_nat n) d * choose (n - d) k.
Proof.
  intros n k d H.
  pose proof (choose_zfact n k ltac:(lia)) as HB.
  pose proof (choose_zfact (n - d) k ltac:(lia)) as HA.
  pose proof (zfact_zfall d n ltac:(lia)) as Fn.
  pose proof (zfact_zfall d (n - k) ltac:(lia)) as Fnk.
  replace (n - k - d)%nat with (n - d - k)%nat in Fnk by lia.
  pose proof (zfact_pos k) as Pk.
  pose proof (zfact_pos (n - d - k)) as Pr.
  apply (Z.mul_cancel_r _ _ (zfact k * zfact (n - d - k))); [nia|].
  transitivity (choose n k * zfact k
                * (zfall (Z.of_nat (n - k)) d * zfact (n - d - k))); [ring|].
  rewrite <- Fnk, HB, Fn, <- HA. ring.
Qed.

Lemma binom_of_nat : forall n k : nat,
  binom (Z.of_nat n) (Z.of_nat k) = choose n k.
Proof.
  intros n k. unfold binom.
  assert (E1 : (Z.of_nat n <? 0) = false) by (apply Z.ltb_ge; lia).
  assert (E2 : (Z.of_nat k <? 0) = false) by (apply Z.ltb_ge; lia).
  rewrite E1, E2, !Nat2Z.id. reflexivity.
Qed.

(** The value at the default inputs of the dashboard (batch 1000, 5 %
    defects, 10 % inspection, c = 0) as a single fraction. *)
Lemma default_plan_value :
  exists q, acceptProbability 1000 50 100 0 = Ret (Fin q) /\
    (q == inject_Z (binom 950 100) / inject_Z (binom 1000 100))%Q.
Proof.
  unfold acceptProbability, prob_accept.
  destruct (hypergeom_cdf_fraction 0 1000 50 100) as (q & E & V);
    [lia | reflexivity |].
  exists q. split; [rewrite E; reflexivity|].
  rewrite V. unfold hg_num. cbn [Z.to_nat zsum_upto].
  rewrite binom_0_r by lia.
  replace (1000 - 50) with 950 by reflexivity.
  replace (100 - 0) with 100 by reflexivity.
  rewrite Z.mul_1_l. reflexivity.
Qed.

Lemma default_plan_cross :
  binom 1000 100 * zfall 900 50 = zfall 1000 50 * binom 950 100.
Proof.
  change (binom 1000 100) with (binom (Z.of_nat 1000) (Z.of_nat 100)).
  change (binom 950 100) with (binom (Z.of_nat (1000 - 50)) (Z.of_nat 100)).
  rewrite !binom_of_nat.
  assert (H : (100 + 50 <= 1000)%nat) by (apply Nat.leb_le; reflexivity).
  exact (choose_ratio_fall 1000 100 50 H).
Qed.

Lemma cross_lt_l : forall A B p q x y : Z,
  B * p = q * A -> 0 < A -> 0 < p -> x * q < y * p -> x * B < y * A.
Proof.
  intros A B p q x y C PA Pp H.
  apply (Z.mul_lt_mono_pos_r p); [exact Pp|].
  replace (x * B * p) with (x * (B * p)) by ring. rewrite C. nia.
Qed.

Lemma cross_lt_r : forall A B p q x y : Z,
  B * p = q * A -> 0 < A -> 0 < p -> y * p < x * q -> y * A < x * B.
Proof.
  intros A B p q x y C PA Pp H.
  apply (Z.mul_lt_mono_pos_r p); [exact Pp|].
  replace (x * B * p) with (x * (B * p)) by ring. rewrite C. nia.
Qed.

Lemma default_plan_bounds :
  447 * binom 1000 100 < 100000 * binom 950 100 /\
  100000 * binom 950 100 < 448 * binom 1000 100.
Proof.
  pose proof default_plan_cross as C.
  pose proof (binom_pos 950 100 ltac:(lia)) as PA.
  assert (Pp : 0 < zfall 900 50) by (vm_compute; reflexivity).
  assert (L : 447 * zfall 1000 50 < 100000 * zfall 900 50)
    by (vm_compute; reflexivity).
  assert (U : 100000 * zfall 900 50 < 448 * zfall 1000 50)
    by (vm_compute; reflexivity).
  split.
  - exact (cross_lt_l _ _ _ _ 447 100000 C PA Pp L).
  - exact (cross_lt_r _ _ _ _ 448 100000 C PA Pp U).
Qed.

(** The default widget values do lead to this plan. *)
Lemma default_plan_inputs :
  M_defects 1000 (5 / 100) = 50 /\ naive_sample_n 1000 (10 / 100) = 100.
Proof. split; reflexivity. Qed.

(** C5 (as amended). For [N = 1000], [M = 50], [n = 100], [c = 0] the
    cumulative hyper-geometric probability computed by the code lies
    strictly between 0.00447 and 0.00448, that is, it is approximately
    0.0045. *)
Theorem acceptProbability_default_plan :
  exists q, acceptProbability 1000 50 100 0 = Ret (Fin q) /\
    (q == inject_Z (binom 950 100) / inject_Z (binom 1000 100))%Q /\
    (447 # 100000 < q)%Q /\ (q < 448 # 100000)%Q.
Proof.
  destruct default_plan_value as (q & E & V).
  destruct default_plan_bounds as [L U].
  pose proof (binom_pos 1000 100 ltac:(lia)) as PB.
  assert (PQ : (0 < inject_Z (binom 1000 100))%Q).
  { change 0%Q with (inject_Z 0). rewrite <- Zlt_Qlt. exact PB. }
  exists q. split; [exact E|]. split; [exact V|]. rewrite V. split.
  - apply Qlt_shift_div_l; [exact PQ|].
    unfold Qlt, Qmult, inject_Z. cbn [Qnum Qden]. lia.
  - apply Qlt_shift_div_r; [exact PQ|].
    unfold Qlt, Qmult, inject_Z. cbn [Qnum Qden]. lia.
Qed.

(** C5 as stated fails: the value is not 0.0059 to the four decimals
    quoted (it is below 0.00585); it is not even within 0.001 of it. *)
Lemma acceptProbability_default_plan_not_0059 :
  exists q, acceptProbability 1000 50 100 0 = Ret (Fin q) /\
    ~ (Qabs (q - (59 # 10000)) <= 1 # 1000)%Q.
Proof.
  destruct default_plan_value as (q & E & V).
  destruct default_plan_bounds as [_ U].
  pose proof (binom_pos 1000 100 ltac:(lia)) as PB.
  assert (PQ : (0 < inject_Z (binom 1000 100))%Q).
  { change 0%Q with (inject_Z 0). rewrite <- Zlt_Qlt. exact PB. }
  assert (Hq : (q < 448 # 100000)%Q).
  { rewrite V. apply Qlt_shift_div_r; [exact PQ|].
    unfold Qlt, Qmult, inject_Z. cbn [Qnum Qden]. lia. }
  exists q. split; [exact E|]. intros H.
  apply Qabs_Qle_condition in H. destruct H as [H _]. lra.
Qed.

(** ** C6: out-of-range counts *)

(** C6 as stated fails: with more defectives than items ([M = 101],
    [N = 100]), or a sample larger than the batch ([n = 101]), nothing is
    raised; the result is a silent [nan]. *)
Lemma acceptProbability_out_of_range_is_nan :
  acceptProbability 100 101 10 0 = Ret NaN /\
  acceptProbability 100 5 101 0 = Ret NaN /\
  ~ (exists e, acceptProbability 100 101 10 0 = Raise e) /\
  ~ (exists e, acceptProbability 100 5 101 0 = Raise e).
Proof.
  repeat split; try reflexivity; intros [e H]; discriminate H.
Qed.

(** C6 (as amended). The acceptance computation has no validation step and
    never raises: called with [M > N] or [n > N] it returns [nan].  The
    dashboard cannot produce such a call: for a batch size, defect rate and
    inspection rate within the widget ranges, [M = int(N * rate)] and
    [n = int(N * inspection)] lie in [0, N] and the result is a number; on
    the OC-curve path [M_sim] is clamped into [0, N]. *)
Theorem acceptProbability_range_by_construction :
  (forall N M n c, exists v, acceptProbability N M n c = Ret v)
  /\ (forall N M n c, N < M \/ N < n -> acceptProbability N M n c = Ret NaN)
  /\ (forall batch_size real_defect_rate naive_inspection_rate c,
        batch_size_ok batch_size ->
        defect_rate_ok real_defect_rate ->
        inspection_rate_ok naive_inspection_rate ->
        acceptance_number_ok c ->
        let M := M_defects batch_size real_defect_rate in
        let n := naive_sample_n batch_size naive_inspection_rate in
        0 <= M <= batch_size /\ 0 <= n <= batch_size /\
        exists q, prob_accept c batch_size M n = Ret (Fin q))
  /\ (forall N p, 0 <= N -> 0 <= M_sim N p <= N).
Proof.
  split; [|split; [|split]].
  - intros N M n c. eexists. reflexivity.
  - intros N M n c H. unfold acceptProbability, prob_accept, hypergeom_cdf.
    rewrite hypergeom_argcheck_false by exact H. reflexivity.
  - intros N r ir c HN [Hr0 Hr1] [Hi0 Hi1] [Hc0 Hc1] M n.
    unfold batch_size_ok in HN.
    assert (HM : 0 <= M <= N).
    { subst M. unfold M_defects. split.
      - apply py_int_nonneg. apply Qmult_le_0_compat; [|exact Hr0].
        apply inject_Z_nonneg. lia.
      - apply py_int_scale_le; [lia|].
        apply Qle_trans with (1 # 5)%Q; [exact Hr1 | discriminate]. }
    assert (Hn : 0 <= n <= N).
    { subst n. unfold naive_sample_n. split.
      - apply py_int_nonneg. apply Qmult_le_0_compat; [|exact Hi0].
        apply inject_Z_nonneg. lia.
      - apply py_int_scale_le; [lia | exact Hi1]. }
    split; [exact HM|]. split; [exact Hn|].
    destruct (hypergeom_cdf_fraction c N M n Hc0) as (q & E & _).
    { apply hypergeom_argcheck_true; lia. }
    exists q. unfold prob_accept. rewrite E. reflexivity.
  - exact M_sim_range.
Qed.

Lemma acceptProbability_range_by_construction_witness :
  let M := M_defects 1000 (5 / 100) in
  let n := naive_sample_n 1000 (10 / 100) in
  0 <= M <= 1000 /\ 0 <= n <= 1000 /\
  exists q, prob_accept 0 1000 M n = Ret (Fin q).
Proof.
  apply (proj1 (proj2 (proj2 acceptProbability_range_by_construction))
           1000 (5 / 100)%Q (10 / 100)%Q 0).
  - unfold batch_size_ok. lia.
  - split; discriminate.
  - split; discriminate.
  - unfold acceptance_number_ok. lia.
Defined.

(** ** C7: the defect count along the OC grid *)

(** Every rate of the grid lies between 0 and 1/4. *)
Lemma defect_rates_bounds : forall i p,
  nth_error defect_rates i = Some p -> (0 <= p)%Q /\ (p <= 1 # 4)%Q.
Proof.
  intros i p H.
  assert (Hi : (i < 100)%nat).
  { assert (L : length defect_rates = 100%nat).
    { unfold defect_rates, linspace_double.
      rewrite length_app, length_map, length_seq. reflexivity. }
    rewrite <- L. apply nth_error_Some. rewrite H. discriminate. }
  assert (Top : (fl (1 # 5) <= 1 # 4)%Q) by (vm_compute; discriminate).
  destruct (defect_rates_ordered 0 i ltac:(lia)) as (p0 & p' & E0 & Ei & L0).
  destruct (defect_rates_ordered i 99 ltac:(lia)) as (p'' & p99 & Ei' & E99 & L99).
  rewrite H in Ei, Ei'. injection Ei as <-. injection Ei' as <-.
  rewrite defect_rates_last in E99. injection E99 as <-.
  assert (Z0 : (0 <= p0)%Q).
  { rewrite defect_rates_nth in E0 by lia. injection E0 as <-.
    vm_compute. discriminate. }
  split; lra.
Qed.

(** On the grid the double product lies in [0, N], so the clamp of line
    609 never takes effect. *)
Lemma grid_product_range : forall N i p,
  batch_size_ok N -> nth_error defect_rates i = Some p ->
  (0 <= fmul (float_of_int N) p)%Q /\ (fmul (float_of_int N) p <= inject_Z N)%Q.
Proof.
  intros N i p HN H. unfold batch_size_ok in HN.
  destruct (defect_rates_bounds i p H) as [P0 P1].
  pose proof (float_of_int_nonneg N ltac:(lia)) as F0.
  assert (F1 : (float_of_int N <= 2 * inject_Z N)%Q).
  { unfold float_of_int. apply fl_le_double. apply inject_Z_nonneg. lia. }
  assert (X0 : (0 <= float_of_int N * p)%Q) by (apply Qmult_le_0_compat; assumption).
  assert (X1 : (float_of_int N * p <= float_of_int N * (1 # 4))%Q)
    by (apply Qmult_le_l_nonneg; assumption).
  unfold fmul. split; [apply fl_nonneg; exact X0|].
  pose proof (fl_le_double _ X0). lra.
Qed.

(** C7 as stated fails: at the 26th grid point of a batch of 1000 the
    double product is 50.505..., and the code's defect count is its integer
    part 50, not [round(50.505...) = 51]. *)
Lemma M_sim_truncates_not_rounds :
  exists p,
    nth_error defect_rates 25 = Some p /\
    M_sim 1000 p = 50 /\
    M_round_spec 1000 p = 51 /\
    py_round (fmul (float_of_int 1000) p) = 51.
Proof.
  eexists. split; [apply defect_rates_nth; lia|].
  split; [vm_compute; reflexivity|]. split; vm_compute; reflexivity.
Qed.

(** The count is the integer part of the product as the machine computes
    it: for a batch of 9900 the sixth grid point gives the double just
    below 100 and the count 99, where the exact product
    [9900 * 5 * 0.2 / 99] is 100. *)
Example M_sim_double_product :
  exists p,
    nth_error defect_rates 5 = Some p /\
    (fmul (float_of_int 9900) p < 100)%Q /\
    M_sim 9900 p = 99 /\
    py_int (9900 * (5 * ((1 # 5) / 99))) = 100.
Proof.
  eexists. split; [apply defect_rates_nth; lia|].
  split; [vm_compute; reflexivity|]. split; vm_compute; reflexivity.
Qed.

(** C7 (as amended). In the OC loop the defect count is recomputed at every
    grid point [p] as [int(N * p)]: the double-precision product truncated
    toward zero, then clamped into [0, N]; the cumulative hyper-geometric
    probability is evaluated at that count.  For an admissible batch size
    the clamp never takes effect, so the count is the integer part of the
    product, and it is not constant along the grid (0 at the first point,
    at least 20 at the last). *)
Theorem probs_accept_pointwise :
  (forall c N n i, (i < 100)%nat ->
     exists p,
       nth_error defect_rates i = Some p /\
       M_sim N p = Z.max 0 (Z.min (py_int (fmul (float_of_int N) p)) N) /\
       nth_error (probs_accept c N n) i
       = Some (hypergeom_cdf c N (M_sim N p) n))
  /\ (forall N i p, batch_size_ok N ->
        nth_error defect_rates i = Some p ->
        M_sim N p = py_int (fmul (float_of_int N) p) /\
        (inject_Z (M_sim N p) <= fmul (float_of_int N) p)%Q /\
        (fmul (float_of_int N) p < inject_Z (M_sim N p) + 1)%Q)
  /\ (forall N p0 p99, batch_size_ok N ->
        nth_error defect_rates 0 = Some p0 ->
        nth_error defect_rates 99 = Some p99 ->
        M_sim N p0 = 0 /\ 20 <= M_sim N p99).
Proof.
  assert (Trunc : forall N i p, batch_size_ok N ->
            nth_error defect_rates i = Some p ->
            M_sim N p = py_int (fmul (float_of_int N) p)).
  { intros N i p HN H. destruct (grid_product_range N i p HN H) as [X0 X1].
    unfold batch_size_ok in HN. unfold M_sim.
    pose proof (py_int_nonneg _ X0) as I0.
    pose proof (py_int_mono _ _ X1) as I1. rewrite py_int_inject_Z in I1. lia. }
  split; [|split].
  - intros c N n i Hi.
    destruct (defect_rates_ordered i i ltac:(lia)) as (p & _ & E & _ & _).
    exists p. split; [exact E|]. split; [reflexivity|].
    unfold probs_accept. rewrite nth_error_map, E. reflexivity.
  - intros N i p HN H. split; [exact (Trunc N i p HN H)|].
    rewrite (Trunc N i p HN H).
    destruct (grid_product_range N i p HN H) as [X0 _].
    split; [apply py_int_le_self; exact X0 | apply py_int_lt_succ; exact X0].
  - intros N p0 p99 HN E0 E99.
    rewrite (Trunc N 0%nat p0 HN E0), (Trunc N 99%nat p99 HN E99).
    unfold batch_size_ok in HN.
    assert (P0 : p0 = 0%Q).
    { rewrite defect_rates_nth in E0 by lia. injection E0 as <-.
      vm_compute. reflexivity. }
    rewrite defect_rates_last in E99. injection E99 as <-.
    split.
    + rewrite P0. unfold fmul. rewrite fl_zero by ring. reflexivity.
    + rewrite <- (py_int_inject_Z 20) at 1. apply py_int_mono.
      apply Qle_trans with (fl (inject_Z 20)); [vm_compute; discriminate|].
      unfold fmul. apply fl_mono.
      apply Qle_trans with (inject_Z 100 * (1 # 5))%Q; [vm_compute; discriminate|].
      apply Qle_trans with (float_of_int N * (1 # 5))%Q.
      * apply Qmult_le_compat_r; [|discriminate].
        apply Qle_trans with (fl (inject_Z 100)); [vm_compute; discriminate|].
        unfold float_of_int. apply fl_mono. rewrite <- Zle_Qle. exact HN.
      * apply Qmult_le_l_nonneg; [apply float_of_int_nonneg; lia|].
        vm_compute. discriminate.
Qed.

Lemma probs_accept_pointwise_witness :
  exists p,
    nth_error defect_rates 25 = Some p /\
    M_sim 1000 p = Z.max 0 (Z.min (py_int (fmul (float_of_int 1000) p)) 1000) /\
    nth_error (probs_accept 0 1000 100) 25
    = Some (hypergeom_cdf 0 1000 (M_sim 1000 p) 100).
Proof.
  apply (proj1 probs_accept_pointwise 0 1000 100 25%nat). lia.
Defined.

(* ================================================================== *)
(** * Proofs for part 2 *)
(* ================================================================== *)

Lemma insert_sorted_In : forall x y l, In y (insert_sorted x l) -> y = x \/ In y l.
Proof.
  intros x y l. induction l as [|z l IH]; simpl.
  - intros [H | []]. left. symmetry. exact H.
  - destruct (Qle_bool x z); simpl.
    + intros [H | H]; [left; symmetry; exact H | right; exact H].
    + intros [H | H]; [right; left; exact H|].
      destruct (IH H) as [H' | H']; [left; exact H' | right; right; exact H'].
Qed.

Lemma insert_sorted_length : forall x l, length (insert_sorted x l) = S (length l).
Proof.
  intros x l. induction l as [|z l IH]; simpl; [reflexivity|].
  destruct (Qle_bool x z); simpl; [reflexivity | rewrite IH; reflexivity].
Qed.

Lemma insert_sorted_ascending : forall x l,
  ascending l -> ascending (insert_sorted x l).
Proof.
  intros x l. induction l as [|z l IH]; intros Hl.
  - simpl. split; [intros y [] | exact I].
  - destruct Hl as [Hz Hl]. simpl.
    destruct (Qle_bool x z) eqn:E.
    + apply Qle_bool_iff in E. simpl. split; [|split; assumption].
      intros y [<- | Hy]; [exact E|].
      apply Qle_trans with z; [exact E | apply Hz; exact Hy].
    + assert (Hzx : (z <= x)%Q).
      { apply Qlt_le_weak. apply Qnot_le_lt. intros H.
        apply Qle_bool_iff in H. congruence. }
      simpl. split; [|apply IH; exact Hl].
      intros y Hy. apply insert_sorted_In in Hy.
      destruct Hy as [-> | Hy]; [exact Hzx | apply Hz; exact Hy].
Qed.

Lemma sort_asc_length : forall l, length (sort_asc l) = length l.
Proof.
  induction l as [|x l IH]; simpl; [reflexivity|].
  rewrite insert_sorted_length, IH. reflexivity.
Qed.

Lemma sort_asc_ascending : forall l, ascending (sort_asc l).
Proof.
  induction l as [|x l IH]; simpl; [exact I|].
  apply insert_sorted_ascending. exact IH.
Qed.

(** In an ascending list, a later position holds a larger value. *)
Lemma ascending_nth : forall l i j,
  ascending l -> (i <= j < length l)%nat -> (nth i l 0 <= nth j l 0)%Q.
Proof.
  induction l as [|x l IH]; intros i j Hl Hij; simpl in Hij; [lia|].
  destruct Hl as [Hx Hl].
  destruct i as [|i], j as [|j]; simpl; try lia.
  - apply Qle_refl.
  - apply Hx. apply nth_In. lia.
  - apply IH; [exact Hl | lia].
Qed.

(** Linear interpolation between two ordered values stays between them
    and grows with the weight. *)
Lemma lerp_bounds : forall a b g : Q,
  (a <= b)%Q -> (0 <= g <= 1)%Q ->
  (a <= a + (b - a) * g)%Q /\ (a + (b - a) * g <= b)%Q.
Proof.
  intros a b g Hab [Hg0 Hg1]. split.
  - assert (0 <= (b - a) * g)%Q by (apply Qmult_le_0_compat; lra). lra.
  - assert ((b - a) * g <= (b - a) * 1)%Q
      by (apply Qmult_le_l_nonneg; lra). lra.
Qed.

Lemma lerp_mono : forall a b g g' : Q,
  (a <= b)%Q -> (g <= g')%Q ->
  (a + (b - a) * g <= a + (b - a) * g')%Q.
Proof.
  intros a b g g' Hab Hg.
  assert ((b - a) * g <= (b - a) * g')%Q by (apply Qmult_le_l_nonneg; lra).
  lra.
Qed.

Lemma Qfloor_frac : forall h : Q,
  (0 <= h - inject_Z (Qfloor h))%Q /\ (h - inject_Z (Qfloor h) <= 1)%Q.
Proof.
  intros h. pose proof (Qfloor_le h). pose proof (Qlt_floor h) as H1.
  rewrite inject_Z_plus in H1. change (inject_Z 1) with 1%Q in H1.
  split; lra.
Qed.

(** The interpolated order statistic of a non-empty sample is a number
    and does not decrease with the requested percentage. *)
Lemma percentile_mono : forall (a : list Q) (q q' : Q),
  a <> [] -> (0 <= q)%Q -> (q <= q')%Q -> (q' <= 100)%Q ->
  exists v v', percentile a q = Fin v /\ percentile a q' = Fin v' /\ (v <= v')%Q.
Proof.
  intros a q q' Ha Hq0 Hqq Hq100.
  destruct a as [|x0 a0]; [congruence|].
  set (a := x0 :: a0) in *.
  unfold percentile. fold a. cbv zeta.
  set (s := sort_asc a).
  set (n := Z.of_nat (length a)).
  assert (Hn : 1 <= n) by (subst n a; simpl; lia).
  assert (Hlen : Z.of_nat (length s) = n)
    by (subst s n; rewrite sort_asc_length; reflexivity).
  assert (Hs : ascending s) by apply sort_asc_ascending.
  set (h := (q / 100 * inject_Z (n - 1))%Q).
  set (h' := (q' / 100 * inject_Z (n - 1))%Q).
  assert (Hn1 : (0 <= inject_Z (n - 1))%Q) by (apply inject_Z_nonneg; lia).
  assert (Hh0 : (0 <= h)%Q).
  { subst h. apply Qmult_le_0_compat; [|exact Hn1].
    unfold Qdiv. apply Qmult_le_0_compat; [lra | discriminate]. }
  assert (Hhh : (h <= h')%Q).
  { subst h h'. apply Qmult_le_compat_r; [|exact Hn1].
    unfold Qdiv. apply Qmult_le_compat_r; [exact Hqq | discriminate]. }
  assert (Hh1 : (h' <= inject_Z (n - 1))%Q).
  { subst h'.
    setoid_replace (inject_Z (n - 1)) with (1 * inject_Z (n - 1))%Q at 2 by ring.
    apply Qmult_le_compat_r; [|exact Hn1].
    apply Qle_shift_div_r; [reflexivity | lra]. }
  set (lo := Qfloor h). set (lo' := Qfloor h').
  assert (Hlo0 : 0 <= lo).
  { subst lo. change 0 with (Qfloor 0). apply Qfloor_resp_le. exact Hh0. }
  assert (Hlolo : lo <= lo') by (apply Qfloor_resp_le; exact Hhh).
  assert (Hlo1 : lo' <= n - 1).
  { subst lo'. rewrite <- (Qfloor_Z (n - 1)). apply Qfloor_resp_le. exact Hh1. }
  set (hi := Z.min (lo + 1) (n - 1)). set (hi' := Z.min (lo' + 1) (n - 1)).
  set (g := (h - inject_Z lo)%Q). set (g' := (h' - inject_Z lo')%Q).
  destruct (Qfloor_frac h) as [Hg0 Hg1]. fold lo in Hg0, Hg1. fold g in Hg0, Hg1.
  destruct (Qfloor_frac h') as [Hg0' Hg1']. fold lo' in Hg0', Hg1'.
  fold g' in Hg0', Hg1'.
  set (x := fun i : Z => nth (Z.to_nat i) s 0%Q).
  assert (Hx : forall i j, 0 <= i <= j -> j <= n - 1 -> (x i <= x j)%Q).
  { intros i j Hij Hj. subst x. cbv beta. apply ascending_nth; [exact Hs|]. lia. }
  change (nth (Z.to_nat lo) s 0%Q) with (x lo).
  change (nth (Z.to_nat hi) s 0%Q) with (x hi).
  change (nth (Z.to_nat lo') s 0%Q) with (x lo').
  change (nth (Z.to_nat hi') s 0%Q) with (x hi').
  eexists. eexists. split; [reflexivity|]. split; [reflexivity|].
  assert (Hlohi : (x lo <= x hi)%Q) by (apply Hx; subst hi; lia).
  assert (Hlohi' : (x lo' <= x hi')%Q) by (apply Hx; subst hi'; lia).
  destruct (Z.eq_dec lo lo') as [E | NE].
  - assert (Ehi : hi = hi') by (subst hi hi'; rewrite E; reflexivity).
    rewrite <- Ehi, <- E.
    apply lerp_mono; [exact Hlohi|].
    subst g g'. rewrite <- E. lra.
  - apply Qle_trans with (x hi).
    + apply lerp_bounds; [exact Hlohi | split; assumption].
    + apply Qle_trans with (x lo').
      * apply Hx; subst hi; lia.
      * apply lerp_bounds; [exact Hlohi' | split; assumption].
Qed.

(** A small sample worked by hand: the squares are 1/4, 1, 4, 9, 100, the
    virtual index for 95 % is 3.8, hence 9 + 0.8 * 91 = 81.8. *)
Example var_95_example :
  exists v, var_95 [3%Q; (1 # 2)%Q; 2%Q; 10%Q; 1%Q] = Fin v /\ (v == 818 # 10)%Q.
Proof. eexists. split; [reflexivity|]. vm_compute. reflexivity. Qed.

(** C8. For every non-empty sample of time observations (positive or not)
    the two Value-at-Risk figures are numbers and [var_99 >= var_95], where
    each is the interpolated percentile of the squared observations. *)
Theorem var_99_ge_var_95 : forall sample : list Q,
  sample <> [] ->
  exists v95 v99,
    var_95 sample = Fin v95 /\ var_99 sample = Fin v99 /\ (v95 <= v99)%Q.
Proof.
  intros st Hst. unfold var_95, var_99.
  apply percentile_mono; try discriminate.
  unfold risks. destruct st; [congruence | discriminate].
Qed.

Lemma var_99_ge_var_95_witness :
  exists v95 v99,
    var_95 [3%Q; (1 # 2)%Q; 2%Q; 10%Q; 1%Q] = Fin v95 /\
    var_99 [3%Q; (1 # 2)%Q; 2%Q; 10%Q; 1%Q] = Fin v99 /\
    (v95 <= v99)%Q.
Proof. apply var_99_ge_var_95. discriminate. Defined.

(** The same on the dashboard's own sample, the service times below their
    99th percentile, whenever any observation is left. *)
Lemma var_order_on_cleaned_sample : forall service_times : list Q,
  service_times_clean service_times <> [] ->
  exists v95 v99,
    var_95 (service_times_clean service_times) = Fin v95 /\
    var_99 (service_times_clean service_times) = Fin v99 /\
    (v95 <= v99)%Q.
Proof.
  intros st Hst. unfold var_95, var_99.
  apply percentile_mono; try discriminate.
  unfold risks. destruct (service_times_clean st); [congruence | discriminate].
Qed.

Example service_times_clean_example :
  service_times_clean [3%Q; (1 # 2)%Q; 2%Q; 10%Q; 1%Q]
  = [3%Q; (1 # 2)%Q; 2%Q; 1%Q].
Proof. reflexivity. Qed.

(* ================================================================== *)
(** * Proofs for part 3 *)
(* ================================================================== *)





Lemma ladd_length : forall u v, length (ladd u v) = Nat.max (length u) (length v).
Proof.
  induction u as [|x u IH]; intros [|y v]; simpl; try reflexivity.
  rewrite IH. reflexivity.
Qed.

(** A full convolution of two non-empty arrays has
    [len(a) + len(b) - 1] entries. *)
Lemma convolve_length : forall a b, a <> [] -> b <> [] ->
  length (convolve a b) = (length a + length b - 1)%nat.
Proof.
  induction a as [|x a IH]; intros b Ha Hb; [congruence|].
  cbn [convolve]. rewrite ladd_length, length_map. cbn [length].
  destruct a as [|x' a].
  - cbn [convolve length]. destruct b; [congruence | simpl; lia].
  - rewrite IH by (congruence || exact Hb). cbn [length]. lia.
Qed.


(** The convolved density has 1999 samples, and the step of its grid
    [x_total] is the step [dx] of the input grid. *)
Lemma pdf_total_length : forall sigma scale_pick scale_pack : R,
  length (pdf_total sigma scale_pick scale_pack) = 1999%nat.
Proof.
  intros sigma s1 s2. unfold pdf_total, pdf_pick, pdf_pack.
  assert (L : length x_axis = 1000%nat).
  { unfold x_axis, linspace. rewrite length_map, length_seq. reflexivity. }
  rewrite length_map, convolve_length.
  - rewrite !length_map, L. reflexivity.
  - intros H. apply (f_equal (@length R)) in H.
    rewrite length_map, L in H. discriminate H.
  - intros H. apply (f_equal (@length R)) in H.
    rewrite length_map, L in H. discriminate H.
Qed.

(** ** A parameter choice for which the mass is far from one *)


Lemma linspace_nth : forall a b n i, (i < n)%nat ->
  nth i (linspace a b n) 0%R = (a + INR i * ((b - a) / INR (n - 1)))%R.
Proof.
  intros a b n i Hi. unfold linspace.
  set (f := fun i0 : nat => (a + INR i0 * ((b - a) / INR (n - 1)))%R).
  rewrite (nth_indep _ 0%R (f 0%nat)) by (rewrite length_map, length_seq; exact Hi).
  rewrite map_nth, seq_nth by exact Hi. reflexivity.
Qed.

Lemma dx_value : dx = (30 / 999)%R.
Proof.
  unfold dx, x_axis.
  rewrite !linspace_nth by (apply Nat.ltb_lt; reflexivity).
  replace (INR (1000 - 1)) with 999%R
    by (rewrite INR_IZR_INZ; reflexivity).
  simpl INR. field.
Qed.

Lemma x_total_step : forall sigma scale_pick scale_pack : R,
  (nth 1 (x_total sigma scale_pick scale_pack) 0
   - nth 0 (x_total sigma scale_pick scale_pack) 0)%R = dx.
Proof.
  intros sigma s1 s2. unfold x_total. rewrite pdf_total_length, dx_value.
  rewrite !linspace_nth by (apply Nat.ltb_lt; reflexivity).
  replace (INR (1999 - 1)) with 1998%R
    by (rewrite INR_IZR_INZ; reflexivity).
  simpl INR. field.
Qed.









(* ================================================================== *)
(** * Proofs for part 4 *)
(* ================================================================== *)

Lemma exceeds_03_iff : forall v : Q,
  exceeds_03 (Fin v) = true <-> (3 # 10 < Qabs v)%Q.
Proof.
  intros v. unfold exceeds_03. rewrite negb_true_iff.
  split.
  - intros H. apply Qnot_le_lt. intros C. apply Qle_bool_iff in C. congruence.
  - intros H. apply not_true_is_false. intros C. apply Qle_bool_iff in C.
    exact (Qlt_not_le _ _ H C).
Qed.

Lemma confidence_bound_trend : confidence_bound ts_trend = (196 / 300)%R.
Proof.
  unfold confidence_bound.
  replace (INR (length ts_trend)) with (3 * 3)%R by (simpl; lra).
  rewrite sqrt_square by lra. field.
Qed.

Lemma confidence_bound_cycle : confidence_bound ts_cycle = (196 / 1000)%R.
Proof.
  unfold confidence_bound.
  replace (INR (length ts_cycle)) with (10 * 10)%R.
  - rewrite sqrt_square by lra. field.
  - change (length ts_cycle) with 100%nat.
    rewrite (INR_IZR_INZ 100). simpl. lra.
Qed.

(** The two autocorrelation values used as counterexamples. *)
Lemma acf_trend_lag2 :
  exists rho, nth_error (acf_values ts_trend 12) 2 = Some (Fin rho) /\
              (rho == 7 # 20)%Q.
Proof. eexists. split; [vm_compute; reflexivity | vm_compute; reflexivity]. Qed.

Lemma acf_cycle_lag2 :
  exists rho, nth_error (acf_values ts_cycle 48) 2 = Some (Fin rho) /\
              (rho == 9 # 40)%Q.
Proof. eexists. split; [vm_compute; reflexivity | vm_compute; reflexivity]. Qed.

Lemma colors_nth : forall (vals : list pyfloat) k,
  nth_error (colors vals) k
  = option_map (fun val => if exceeds_03 val then Red else LightBlue)
               (nth_error vals k).
Proof. intros vals k. unfold colors. apply nth_error_map. Qed.

Lemma Q2R_Qabs_7_20 : forall rho : Q, (rho == 7 # 20)%Q -> Q2R (Qabs rho) = (7 / 20)%R.
Proof.
  intros rho H. rewrite (Qeq_eqR _ (7 # 20)).
  - unfold Q2R. simpl. lra.
  - rewrite H. reflexivity.
Qed.

Lemma Q2R_Qabs_9_40 : forall rho : Q, (rho == 9 # 40)%Q -> Q2R (Qabs rho) = (9 / 40)%R.
Proof.
  intros rho H. rewrite (Qeq_eqR _ (9 # 40)).
  - unfold Q2R. simpl. lra.
  - rewrite H. reflexivity.
Qed.

(** C10 as stated fails in both directions.  For the nine-bucket trend the
    lag-2 autocorrelation is 0.35: the bar is red although the value lies
    inside the band 1.96/3.  For the hundred-bucket cycle the lag-2 value is
    0.225: it lies outside the band 0.196, yet the bar is not red. *)
Lemma flag_differs_from_confidence_band :
  (exists rho,
     nth_error (acf_values ts_trend 12) 2 = Some (Fin rho) /\
     nth_error (colors (acf_values ts_trend 12)) 2 = Some Red /\
     ~ outside_band ts_trend rho)
  /\
  (exists rho,
     nth_error (acf_values ts_cycle 48) 2 = Some (Fin rho) /\
     nth_error (colors (acf_values ts_cycle 48)) 2 = Some LightBlue /\
     outside_band ts_cycle rho).
Proof.
  split.
  - destruct acf_trend_lag2 as (rho & E & V).
    exists rho. split; [exact E|]. split.
    + rewrite colors_nth, E. cbn [option_map].
      replace (exceeds_03 (Fin rho)) with true; [reflexivity|].
      symmetry. apply exceeds_03_iff. rewrite V. reflexivity.
    + unfold outside_band.
      rewrite confidence_bound_trend, (Q2R_Qabs_7_20 rho V). lra.
  - destruct acf_cycle_lag2 as (rho & E & V).
    exists rho. split; [exact E|]. split.
    + rewrite colors_nth, E. cbn [option_map].
      replace (exceeds_03 (Fin rho)) with false; [reflexivity|].
      symmetry. apply not_true_is_false. intros C.
      apply exceeds_03_iff in C. rewrite V in C. discriminate C.
    + unfold outside_band.
      rewrite confidence_bound_cycle, (Q2R_Qabs_9_40 rho V). lra.
Qed.

(** C10 (as amended). A lag is marked (red bar; "Strong Memory" for the
    reported seasonal lag) exactly when the absolute autocorrelation
    exceeds the fixed threshold 0.3, whatever the series length; the band
    1.96/sqrt(n) is only drawn as a pair of reference lines. *)
Theorem flag_is_fixed_threshold :
  (forall (vals : list pyfloat) (k : nat) (rho : Q),
     nth_error vals k = Some (Fin rho) ->
     (nth_error (colors vals) k = Some Red <-> (3 # 10 < Qabs rho)%Q))
  /\
  (forall (seasonal_period : nat) (vals : list pyfloat) (rho : Q),
     seasonal_acf seasonal_period vals = Fin rho ->
     (memory seasonal_period vals = StrongMemory <-> (3 # 10 < Qabs rho)%Q)).
Proof.
  split.
  - intros vals k rho E. rewrite colors_nth, E. cbn [option_map].
    rewrite <- exceeds_03_iff.
    destruct (exceeds_03 (Fin rho)); split; intros H;
      try reflexivity; try discriminate H.
  - intros sp vals rho E. unfold memory. rewrite E.
    rewrite <- exceeds_03_iff.
    destruct (exceeds_03 (Fin rho)); split; intros H;
      try reflexivity; try discriminate H.
Qed.

Lemma flag_is_fixed_threshold_witness :
  nth_error (colors [Fin 1; Fin (-(2 # 5)); Fin (1 # 4)]) 1 = Some Red
  <-> (3 # 10 < Qabs (-(2 # 5)))%Q.
Proof.
  apply (proj1 flag_is_fixed_threshold
           [Fin 1; Fin (-(2 # 5)); Fin (1 # 4)] 1%nat (-(2 # 5))%Q).
  reflexivity.
Defined.

(* ================================================================== *)
(** * Proofs for part 5 *)
(* ================================================================== *)

(** ** The generator matrix *)

(** Whatever the three rates are, the rows of [Q_matrix] sum to zero and
    the Failure row is zero. *)
Lemma Q_matrix_rows : forall u d f : Q,
  rows_sum_to_zero (Q_matrix u d f) /\ failure_absorbing (Q_matrix u d f).
Proof.
  intros u d f. split.
  - intros row [<- | [<- | [<- | [<- | []]]]]; unfold row_sum; simpl; ring.
  - intros j Hj. unfold entry. simpl.
    destruct j as [|[|[|[|j]]]]; try reflexivity. lia.
Qed.

(** The sign conditions hold exactly when the three rates are
    non-negative. *)
Lemma Q_matrix_signs : forall u d f : Q,
  (0 <= u)%Q -> (0 <= d)%Q -> (0 <= f)%Q ->
  off_diagonal_nonneg (Q_matrix u d f) /\ diagonal_nonpos (Q_matrix u d f).
Proof.
  intros u d f Hu Hd Hf. split.
  - intros i j Hi Hj Hij. unfold entry.
    destruct i as [|[|[|[|i]]]]; try lia;
    destruct j as [|[|[|[|j]]]]; try lia; simpl; lra.
  - intros i Hi. unfold entry.
    destruct i as [|[|[|[|i]]]]; try lia; simpl; lra.
Qed.

Lemma py_div_ok : forall a b : Q, ~ (b == 0)%Q -> py_div a b = Ret (a / b)%Q.
Proof.
  intros a b Hb. unfold py_div.
  destruct (Qeq_bool b 0) eqn:E; [|reflexivity].
  apply Qeq_bool_eq in E. contradiction.
Qed.

Lemma Qdiv_nonneg : forall a b : Q, (0 <= a)%Q -> (0 < b)%Q -> (0 <= a / b)%Q.
Proof.
  intros a b Ha Hb. apply Qle_shift_div_l; [exact Hb|]. lra.
Qed.

(** Below twice the capacity the construction succeeds and yields a valid
    generator of the documented shape. *)
Lemma build_Q_valid_below_twice_capacity : forall lambda_rate num_servers : Z,
  0 <= lambda_rate -> num_servers_ok num_servers ->
  lambda_rate < 2 * service_capacity num_servers ->
  exists u d f : Q,
    build_Q lambda_rate num_servers = Ret (Q_matrix u d f) /\
    (0 <= u)%Q /\ (0 <= d)%Q /\ (0 <= f)%Q /\
    valid_generator (Q_matrix u d f).
Proof.
  intros lam n Hlam Hn Hlt. unfold num_servers_ok in Hn.
  unfold build_Q. set (mu := service_capacity n) in *.
  assert (Hmu : 2 <= mu) by (subst mu; unfold service_capacity; lia).
  assert (HmuQ : (0 < inject_Z mu)%Q).
  { change 0%Q with (inject_Z 0). rewrite <- Zlt_Qlt. lia. }
  unfold utilization. rewrite py_div_ok by lra. cbn [bind].
  set (rho := (inject_Z lam / inject_Z mu)%Q).
  assert (Hrho0 : (0 <= rho)%Q).
  { subst rho. apply Qdiv_nonneg; [apply inject_Z_nonneg; lia | exact HmuQ]. }
  assert (Hrho2 : (rho < 2)%Q).
  { subst rho. apply Qlt_shift_div_r; [exact HmuQ|].
    change 2%Q with (inject_Z 2). rewrite <- inject_Z_mult, <- Zlt_Qlt. lia. }
  unfold stress_factor. rewrite py_div_ok by lra. cbn [bind].
  set (sf := (rho / (2 - rho))%Q).
  assert (Hsf : (0 <= sf)%Q) by (subst sf; apply Qdiv_nonneg; lra).
  set (u := up_rate lam sf). set (d := down_rate mu).
  set (f := failure_rate u rho).
  assert (Hu : (0 <= u)%Q).
  { subst u. unfold up_rate. apply Qdiv_nonneg; [|reflexivity].
    apply Qmult_le_0_compat; [apply inject_Z_nonneg; lia | exact Hsf]. }
  assert (Hd : (0 <= d)%Q).
  { subst d. unfold down_rate. apply Qdiv_nonneg; [lra | reflexivity]. }
  assert (Hf : (0 <= f)%Q).
  { subst f. unfold failure_rate. destruct (Qgt_bool rho (9 # 10)); lra. }
  exists u, d, f. split; [reflexivity|].
  split; [exact Hu|]. split; [exact Hd|]. split; [exact Hf|].
  destruct (Q_matrix_rows u d f) as [R A].
  destruct (Q_matrix_signs u d f Hu Hd Hf) as [O D].
  repeat split; assumption.
Qed.

(** C1, at inputs the two widgets accept.  With 200 orders per hour and 25
    servers (utilisation 4) the matrix is built with negative "rates": its
    entry (Idle, Busy) is -20 and its entry (Idle, Idle) is +20, so it is
    not a generator.  With 200 orders per hour and the default 50 servers
    (utilisation exactly 2) the stress factor divides by zero and no matrix
    is built at all. *)
Theorem build_Q_at_twice_capacity_and_above :
  lambda_rate_ok 200 /\ num_servers_ok 25 /\ num_servers_ok 50 /\
  (exists M,
     build_Q 200 25 = Ret M /\
     (entry M 0 1 == -20)%Q /\ (entry M 0 0 == 20)%Q /\
     ~ off_diagonal_nonneg M /\ ~ diagonal_nonpos M) /\
  build_Q 200 50 = Raise ZeroDivisionError.
Proof.
  split; [unfold lambda_rate_ok; split; [lia | reflexivity]|].
  split; [unfold num_servers_ok; lia|].
  split; [unfold num_servers_ok; lia|].
  split; [|reflexivity].
  eexists. split; [reflexivity|].
  split; [reflexivity|]. split; [reflexivity|]. split.
  - intros H. specialize (H 0%nat 1%nat ltac:(lia) ltac:(lia) ltac:(lia)).
    vm_compute in H. apply H. reflexivity.
  - intros H. specialize (H 0%nat ltac:(lia)).
    vm_compute in H. apply H. reflexivity.
Qed.


(** ** Series bounds for the matrix exponential *)

Lemma sum4_le : forall f g : nat -> R,
  (forall k, (f k <= g k)%R) -> (sum4 f <= sum4 g)%R.
Proof.
  intros f g H. unfold sum4.
  pose proof (H 0%nat). pose proof (H 1%nat).
  pose proof (H 2%nat). pose proof (H 3%nat). lra.
Qed.

Lemma sum4_Rabs : forall f : nat -> R,
  (Rabs (sum4 f) <= sum4 (fun k => Rabs (f k)))%R.
Proof.
  intros f. unfold sum4.
  eapply Rle_trans; [apply Rabs_triang|]. apply Rplus_le_compat_r.
  eapply Rle_trans; [apply Rabs_triang|]. apply Rplus_le_compat_r.
  apply Rabs_triang.
Qed.

Lemma Mid_bound : forall i j, (Rabs (Mid i j) <= 1)%R.
Proof.
  intros i j. unfold Mid. destruct (Nat.eqb i j).
  - rewrite Rabs_R1. lra.
  - rewrite Rabs_R0. lra.
Qed.

(** If every entry of [A] is at most [a] in absolute value, the entries of
    [A^k] are at most [(4 a)^k]. *)
Lemma Mpow_bound : forall (A : Rmat) (a : R),
  (forall i j, (Rabs (A i j) <= a)%R) ->
  forall k i j, (Rabs (Mpow A k i j) <= (4 * a) ^ k)%R.
Proof.
  intros A a HA.
  assert (Ha : (0 <= a)%R).
  { eapply Rle_trans; [apply Rabs_pos | apply (HA 0%nat 0%nat)]. }
  induction k as [|k IH]; intros i j.
  - simpl. apply Mid_bound.
  - cbn [Mpow]. unfold Mmul.
    eapply Rle_trans; [apply sum4_Rabs|].
    apply Rle_trans with (sum4 (fun _ => ((4 * a) ^ k * a)%R)).
    + apply sum4_le. intros m. rewrite Rabs_mult.
      apply Rmult_le_compat; try apply Rabs_pos; [apply IH | apply HA].
    + unfold sum4. simpl pow. lra.
Qed.

Lemma pow_fact_nonneg : forall c k, (0 <= c)%R -> (0 <= pow_fact c k)%R.
Proof.
  intros c k Hc. unfold pow_fact.
  apply Rmult_le_pos; [apply pow_le; exact Hc|].
  left. apply Rinv_0_lt_compat. apply INR_fact_lt_0.
Qed.

Lemma pow_fact_S : forall c k,
  pow_fact c (S k) = (pow_fact c k * (c / INR (S k)))%R.
Proof.
  intros c k. unfold pow_fact. rewrite fact_simpl, mult_INR.
  simpl pow. field.
  split; first [apply INR_fact_neq_0 | apply not_0_INR; lia].
Qed.

Lemma expm_term_bound : forall (A : Rmat) (a : R),
  (forall i j, (Rabs (A i j) <= a)%R) ->
  forall k i j, (Rabs (expm_term A k i j) <= pow_fact (4 * a) k)%R.
Proof.
  intros A a HA k i j. unfold expm_term, pow_fact, Rdiv.
  rewrite Rabs_mult.
  rewrite (Rabs_pos_eq (/ INR (fact k)))
    by (left; apply Rinv_0_lt_compat; apply INR_fact_lt_0).
  apply Rmult_le_compat_r.
  - left. apply Rinv_0_lt_compat. apply INR_fact_lt_0.
  - apply Mpow_bound. exact HA.
Qed.

(** Once [k + 1 >= 2 c], each bound is at most half the previous one. *)
Lemma pow_fact_halves : forall c k,
  (0 <= c)%R -> (2 * c <= INR (S k))%R ->
  (2 * pow_fact c (S k) <= pow_fact c k)%R.
Proof.
  intros c k Hc Hk. rewrite pow_fact_S.
  pose proof (pow_fact_nonneg c k Hc) as Hp.
  assert (Hpos : (0 < INR (S k))%R) by (apply lt_0_INR; lia).
  assert (Hq : (c / INR (S k) <= 1 / 2)%R).
  { apply Rmult_le_reg_r with (INR (S k)); [exact Hpos|].
    unfold Rdiv. rewrite Rmult_assoc, Rinv_l by lra. lra. }
  assert (Hq0 : (0 <= c / INR (S k))%R).
  { apply Rmult_le_pos; [exact Hc | left; apply Rinv_0_lt_compat; exact Hpos]. }
  nra.
Qed.

(** Beyond index [N] with [N + 2 >= 2 * 4a] the partial sums move by at
    most twice the bound of the first omitted term. *)
Lemma expm_partial_tail : forall (A : Rmat) (a : R) (N : nat),
  (forall i j, (Rabs (A i j) <= a)%R) ->
  (2 * (4 * a) <= INR (S (S N)))%R ->
  forall p i j,
    (Rabs (expm_partial A (S N + p) i j - expm_partial A N i j)
     <= 2 * pow_fact (4 * a) (S N) - pow_fact (4 * a) (S N + p))%R.
Proof.
  intros A a N HA HN.
  assert (Ha : (0 <= a)%R).
  { eapply Rle_trans; [apply Rabs_pos | apply (HA 0%nat 0%nat)]. }
  induction p as [|p IH]; intros i j.
  - rewrite Nat.add_0_r. unfold expm_partial. cbn [sum_f_R0].
    replace (sum_f_R0 (fun k => expm_term A k i j) N + expm_term A (S N) i j
             - sum_f_R0 (fun k => expm_term A k i j) N)%R
      with (expm_term A (S N) i j) by ring.
    pose proof (expm_term_bound A a HA (S N) i j). lra.
  - replace (S N + S p)%nat with (S (S N + p)) by lia.
    unfold expm_partial in *. cbn [sum_f_R0].
    specialize (IH i j).
    pose proof (expm_term_bound A a HA (S (S N + p)) i j) as Ht.
    assert (Hh : (2 * pow_fact (4 * a) (S (S N + p))
                  <= pow_fact (4 * a) (S N + p))%R).
    { apply pow_fact_halves; [lra|].
      eapply Rle_trans; [exact HN|]. apply le_INR. lia. }
    set (s := sum_f_R0 (fun k => expm_term A k i j) (S N + p)) in *.
    set (s0 := sum_f_R0 (fun k => expm_term A k i j) N) in *.
    replace (s + expm_term A (S (S N + p)) i j - s0)%R
      with ((s - s0) + expm_term A (S (S N + p)) i j)%R by ring.
    eapply Rle_trans; [apply Rabs_triang|]. lra.
Qed.

Lemma expm_partial_tail_le : forall (A : Rmat) (a : R) (N : nat),
  (forall i j, (Rabs (A i j) <= a)%R) ->
  (2 * (4 * a) <= INR (S (S N)))%R ->
  forall n i j, (N <= n)%nat ->
    (Rabs (expm_partial A n i j - expm_partial A N i j)
     <= 2 * pow_fact (4 * a) (S N))%R.
Proof.
  intros A a N HA HN n i j Hn.
  assert (Ha : (0 <= a)%R).
  { eapply Rle_trans; [apply Rabs_pos | apply (HA 0%nat 0%nat)]. }
  destruct (Nat.eq_dec n N) as [-> | Hne].
  - replace (expm_partial A N i j - expm_partial A N i j)%R with 0%R by ring.
    rewrite Rabs_R0. pose proof (pow_fact_nonneg (4 * a) (S N)). lra.
  - replace n with (S N + (n - S N))%nat by lia.
    eapply Rle_trans; [apply expm_partial_tail; eassumption|].
    pose proof (pow_fact_nonneg (4 * a) (S N + (n - S N))). lra.
Qed.

(** The limit is within the same distance of the partial sum. *)
Lemma expm_limit_near_partial : forall (A E : Rmat) (a : R) (N : nat),
  (forall i j, (Rabs (A i j) <= a)%R) ->
  (2 * (4 * a) <= INR (S (S N)))%R ->
  is_expm A E ->
  forall i j,
    (Rabs (E i j - expm_partial A N i j) <= 2 * pow_fact (4 * a) (S N))%R.
Proof.
  intros A E a N HA HN HE i j.
  apply le_epsilon. intros eps Heps.
  destruct (HE i j eps Heps) as [M HM].
  set (n := Nat.max M N).
  specialize (HM n ltac:(subst n; lia)). unfold R_dist in HM.
  pose proof (expm_partial_tail_le A a N HA HN n i j ltac:(subst n; lia)) as Ht.
  replace (E i j - expm_partial A N i j)%R
    with (- (expm_partial A n i j - E i j)
          + (expm_partial A n i j - expm_partial A N i j))%R by ring.
  eapply Rle_trans; [apply Rabs_triang|].
  rewrite Rabs_Ropp. lra.
Qed.

(** The series converges for every matrix with bounded entries, so the
    exponential exists; it is unique. *)
Lemma expm_partial_Cauchy : forall (A : Rmat) (a : R),
  (forall i j, (Rabs (A i j) <= a)%R) ->
  forall i j, Cauchy_crit (fun N => expm_partial A N i j).
Proof.
  intros A a HA i j eps Heps.
  assert (Ha : (0 <= a)%R).
  { eapply Rle_trans; [apply Rabs_pos | apply (HA 0%nat 0%nat)]. }
  destruct (cv_speed_pow_fact (4 * a)%R (eps / 4)%R ltac:(lra)) as [N1 HN1].
  destruct (INR_unbounded (2 * (4 * a))%R) as [N2 HN2].
  set (N := Nat.max N1 N2).
  assert (HN : (2 * (4 * a) <= INR (S (S N)))%R).
  { apply Rle_trans with (INR N2); [lra|]. apply le_INR. subst N. lia. }
  assert (Hb : (2 * pow_fact (4 * a) (S N) < eps / 2)%R).
  { specialize (HN1 (S N) ltac:(subst N; lia)).
    unfold Rdist in HN1. rewrite Rminus_0_r in HN1.
    fold (pow_fact (4 * a) (S N)) in HN1.
    apply Rabs_def2 in HN1. lra. }
  exists N. intros n m Hn Hm. unfold Rdist.
  pose proof (expm_partial_tail_le A a N HA HN n i j Hn) as Tn.
  pose proof (expm_partial_tail_le A a N HA HN m i j Hm) as Tm.
  replace (expm_partial A n i j - expm_partial A m i j)%R
    with ((expm_partial A n i j - expm_partial A N i j)
          + - (expm_partial A m i j - expm_partial A N i j))%R by ring.
  eapply Rle_lt_trans; [apply Rabs_triang|].
  rewrite Rabs_Ropp. lra.
Qed.

Lemma expm_exists : forall (A : Rmat) (a : R),
  (forall i j, (Rabs (A i j) <= a)%R) -> exists E, is_expm A E.
Proof.
  intros A a HA.
  exists (fun i j =>
            proj1_sig (R_complete _ (expm_partial_Cauchy A a HA i j))).
  intros i j.
  exact (proj2_sig (R_complete _ (expm_partial_Cauchy A a HA i j))).
Qed.

Lemma expm_unique : forall A E E',
  is_expm A E -> is_expm A E' -> forall i j, E i j = E' i j.
Proof.
  intros A E E' H H' i j.
  exact (UL_sequence _ _ _ (H i j) (H' i j)).
Qed.

(** ** Rational matrices *)

Lemma Q2R_Qred : forall q : Q, Q2R (Qred q) = Q2R q.
Proof. intros q. apply Qeq_eqR. apply Qred_correct. Qed.

Lemma Q2R_0 : Q2R 0 = 0%R.
Proof. unfold Q2R. simpl. lra. Qed.

Lemma Q2R_1 : Q2R 1 = 1%R.
Proof. unfold Q2R. simpl. lra. Qed.

Lemma entry_tab4 : forall f i j, (i < 4)%nat -> (j < 4)%nat ->
  entry (tab4 f) i j = Qred (f i j).
Proof.
  intros f i j Hi Hj.
  destruct i as [|[|[|[|i]]]]; try lia;
    destruct j as [|[|[|[|j]]]]; try lia; reflexivity.
Qed.

Lemma Rmat_of_tab4 : forall f i j, (i < 4)%nat -> (j < 4)%nat ->
  Rmat_of (tab4 f) i j = Q2R (f i j).
Proof.
  intros f i j Hi Hj. unfold Rmat_of. rewrite entry_tab4 by assumption.
  apply Q2R_Qred.
Qed.

Lemma Rmat_of_mmul : forall A B i j, (i < 4)%nat -> (j < 4)%nat ->
  Rmat_of (mmul A B) i j = Mmul (Rmat_of A) (Rmat_of B) i j.
Proof.
  intros A B i j Hi Hj. unfold mmul. rewrite Rmat_of_tab4 by assumption.
  unfold Mmul, sum4, Rmat_of. rewrite !Q2R_plus, !Q2R_mult. reflexivity.
Qed.

Lemma Mmul_ext_l : forall A A' B i j,
  (forall k, (k < 4)%nat -> A i k = A' i k) -> Mmul A B i j = Mmul A' B i j.
Proof.
  intros A A' B i j H. unfold Mmul, sum4.
  rewrite (H 0%nat), (H 1%nat), (H 2%nat), (H 3%nat) by lia. reflexivity.
Qed.

Lemma Q2R_inv_nat : forall n : nat,
  Q2R (1 / inject_Z (Z.of_nat (S n))) = (/ INR (S n))%R.
Proof.
  intros n. unfold Qdiv. rewrite Q2R_mult, Q2R_1, Q2R_inv.
  - unfold Q2R. cbn [Qnum Qden inject_Z]. rewrite INR_IZR_INZ.
    rewrite Rinv_1, Rmult_1_r, Rmult_1_l. reflexivity.
  - intros H. unfold Qeq in H. cbn in H. lia.
Qed.

(** The exact evaluation agrees with the real partial sums. *)
Lemma taylor_spec : forall (A : mat) (N : nat) i j,
  (i < 4)%nat -> (j < 4)%nat ->
  Rmat_of (fst (taylor A N)) i j = expm_term (Rmat_of A) N i j /\
  Rmat_of (snd (taylor A N)) i j = expm_partial (Rmat_of A) N i j.
Proof.
  intros A N. induction N as [|N IH]; intros i j Hi Hj.
  - cbn [taylor fst snd]. unfold expm_partial, expm_term. cbn [sum_f_R0 Mpow fact].
    unfold mid. rewrite Rmat_of_tab4 by assumption.
    unfold Mid. simpl INR. destruct (Nat.eqb i j).
    + rewrite Q2R_1. split; field.
    + rewrite Q2R_0. split; field.
  - cbn [taylor]. destruct (taylor A N) as [T Sm] eqn:ET.
    cbn [fst snd] in *.
    assert (HT : Rmat_of (mscale (1 / inject_Z (Z.of_nat (S N))) (mmul T A)) i j
                 = expm_term (Rmat_of A) (S N) i j).
    { unfold mscale. rewrite Rmat_of_tab4 by assumption.
      rewrite Q2R_mult, Q2R_inv_nat.
      fold (Rmat_of (mmul T A) i j). rewrite Rmat_of_mmul by assumption.
      rewrite (Mmul_ext_l _ (expm_term (Rmat_of A) N))
        by (intros k Hk; apply (IH i k Hi Hk)).
      unfold expm_term. cbn [Mpow]. unfold Mmul, sum4.
      rewrite fact_simpl, mult_INR.
      field. split; first [apply INR_fact_neq_0 | apply not_0_INR; lia]. }
    split; [exact HT|].
    unfold madd. rewrite Rmat_of_tab4 by assumption.
    rewrite Q2R_plus.
    fold (Rmat_of Sm i j).
    fold (Rmat_of (mscale (1 / inject_Z (Z.of_nat (S N))) (mmul T A)) i j).
    rewrite HT, (proj2 (IH i j Hi Hj)).
    unfold expm_partial. cbn [sum_f_R0]. reflexivity.
Qed.

(** ** Enclosing an entry of the exponential of a rational matrix *)



Lemma Q2R_Qabs : forall q : Q, Q2R (Qabs q) = Rabs (Q2R q).
Proof.
  intros q. apply Qabs_case; intros H.
  - rewrite Rabs_pos_eq; [reflexivity|].
    rewrite <- Q2R_0. apply Qle_Rle. exact H.
  - rewrite Q2R_opp, Rabs_left1; [reflexivity|].
    rewrite <- Q2R_0. apply Qle_Rle. exact H.
Qed.

Lemma entry_In_or_zero : forall (M : mat) i j,
  entry M i j = 0%Q \/ exists row, In row M /\ In (entry M i j) row.
Proof.
  intros M i j. unfold entry.
  destruct (nth_in_or_default i M []) as [Hr | Hr].
  - destruct (nth_in_or_default j (nth i M []) 0%Q) as [He | He].
    + right. exists (nth i M []). split; assumption.
    + left. exact He.
  - left. rewrite Hr. destruct j; reflexivity.
Qed.

Lemma all_entries_le_spec : forall (M : mat) (a : Q),
  (0 <= a)%Q -> all_entries_le M a = true ->
  forall i j, (Rabs (Rmat_of M i j) <= Q2R a)%R.
Proof.
  intros M a Ha H i j. unfold Rmat_of. rewrite <- Q2R_Qabs. apply Qle_Rle.
  destruct (entry_In_or_zero M i j) as [-> | (row & Hrow & Hin)].
  - exact Ha.
  - unfold all_entries_le in H. rewrite forallb_forall in H.
    specialize (H row Hrow). rewrite forallb_forall in H.
    apply Qle_bool_iff. apply H. exact Hin.
Qed.

Lemma Q2R_inject_Z_nat : forall n : nat, Q2R (inject_Z (Z.of_nat n)) = INR n.
Proof.
  intros n. unfold Q2R. cbn [Qnum Qden inject_Z].
  rewrite INR_IZR_INZ, Rinv_1, Rmult_1_r. reflexivity.
Qed.

Lemma pow_fact_q_spec : forall (c : Q) (k : nat),
  Q2R (pow_fact_q c k) = pow_fact (Q2R c) k.
Proof.
  intros c k. induction k as [|k IH].
  - cbn [pow_fact_q]. rewrite Q2R_1. unfold pow_fact. simpl. field.
  - cbn [pow_fact_q]. rewrite Q2R_Qred, Q2R_mult, IH, pow_fact_S.
    unfold Qdiv. rewrite Q2R_mult, Q2R_inv, Q2R_inject_Z_nat; [reflexivity|].
    intros H. unfold Qeq in H. cbn in H. lia.
Qed.

(** An entry of the exponential of a rational matrix lies within an
    explicit rational distance of the exactly computed partial sum. *)
Lemma expm_entry_enclosure : forall (A : mat) (a : Q) (N : nat) (E : Rmat) i j,
  (0 <= a)%Q -> all_entries_le A a = true ->
  (2 * (4 * a) <= inject_Z (Z.of_nat (S (S N))))%Q ->
  is_expm (Rmat_of A) E ->
  (i < 4)%nat -> (j < 4)%nat ->
  (Rabs (E i j - Q2R (entry (snd (taylor A N)) i j))
   <= Q2R (2 * pow_fact_q (4 * a) (S N)))%R.
Proof.
  intros A a N E i j Ha HA HN HE Hi Hj.
  pose proof (all_entries_le_spec A a Ha HA) as HB.
  assert (HN' : (2 * (4 * Q2R a) <= INR (S (S N)))%R).
  { apply Qle_Rle in HN.
    rewrite !Q2R_mult, Q2R_inject_Z_nat in HN.
    replace (Q2R 2) with 2%R in HN by (unfold Q2R; simpl; lra).
    replace (Q2R 4) with 4%R in HN by (unfold Q2R; simpl; lra).
    exact HN. }
  pose proof (expm_limit_near_partial _ E _ N HB HN' HE i j) as H.
  fold (Rmat_of (snd (taylor A N)) i j).
  rewrite (proj2 (taylor_spec A N i j Hi Hj)).
  rewrite Q2R_mult, pow_fact_q_spec, Q2R_mult.
  replace (Q2R 2) with 2%R by (unfold Q2R; simpl; lra).
  replace (Q2R 4) with 4%R by (unfold Q2R; simpl; lra).
  exact H.
Qed.

(** The entries of a rational matrix are bounded. *)
Lemma Rmat_of_bounded : forall (A : mat),
  exists a : R, forall i j, (Rabs (Rmat_of A i j) <= a)%R.
Proof.
  intros A.
  set (a := fold_right (fun row acc =>
                          fold_right (fun x acc' => Qabs x + acc')%Q acc row)
                       0%Q A).
  exists (Q2R a).
  assert (G : forall row acc, (0 <= acc)%Q ->
            (acc <= fold_right (fun x acc' => Qabs x + acc')%Q acc row)%Q /\
            forall x, In x row ->
              (Qabs x <= fold_right (fun x acc' => Qabs x + acc')%Q acc row)%Q).
  { induction row as [|y row IH]; intros acc Hacc; cbn [fold_right].
    - split; [apply Qle_refl | intros x []].
    - destruct (IH acc Hacc) as [I1 I2].
      pose proof (Qabs_nonneg y). split; [lra|].
      intros x [<- | Hx]; [lra|]. specialize (I2 x Hx). lra. }
  assert (F : forall M, (0 <= fold_right (fun row acc =>
                          fold_right (fun x acc' => Qabs x + acc')%Q acc row)
                       0%Q M)%Q /\
            forall row x, In row M -> In x row ->
              (Qabs x <= fold_right (fun row acc =>
                          fold_right (fun x acc' => Qabs x + acc')%Q acc row)
                       0%Q M)%Q).
  { induction M as [|r M IH]; cbn [fold_right].
    - split; [apply Qle_refl | intros row x []].
    - destruct IH as [I1 I2]. destruct (G r _ I1) as [G1 G2].
      split; [lra|].
      intros row x [<- | Hrow] Hx; [apply G2; exact Hx|].
      specialize (I2 row x Hrow Hx). lra. }
  destruct (F A) as [F1 F2]. fold a in F1, F2.
  intros i j. unfold Rmat_of. rewrite <- Q2R_Qabs. apply Qle_Rle.
  destruct (entry_In_or_zero A i j) as [-> | (row & Hrow & Hin)].
  - exact F1.
  - apply (F2 row _ Hrow Hin).
Qed.

Lemma expm_exists_mat : forall (A : mat), exists E, is_expm (Rmat_of A) E.
Proof.
  intros A. destruct (Rmat_of_bounded A) as [a Ha].
  exact (expm_exists _ a Ha).
Qed.

Lemma enclosure_upper : forall (A : mat) (a b : Q) (N : nat) (E : Rmat) i j,
  (0 <= a)%Q -> all_entries_le A a = true ->
  (2 * (4 * a) <= inject_Z (Z.of_nat (S (S N))))%Q ->
  is_expm (Rmat_of A) E -> (i < 4)%nat -> (j < 4)%nat ->
  (entry (snd (taylor A N)) i j + 2 * pow_fact_q (4 * a) (S N) < b)%Q ->
  (E i j < Q2R b)%R.
Proof.
  intros A a b N E i j Ha HA HN HE Hi Hj Hb.
  pose proof (expm_entry_enclosure A a N E i j Ha HA HN HE Hi Hj) as H.
  apply Qlt_Rlt in Hb. rewrite Q2R_plus in Hb.
  unfold Rabs in H. destruct (Rcase_abs _) in H; lra.
Qed.

Lemma enclosure_lower : forall (A : mat) (a b : Q) (N : nat) (E : Rmat) i j,
  (0 <= a)%Q -> all_entries_le A a = true ->
  (2 * (4 * a) <= inject_Z (Z.of_nat (S (S N))))%Q ->
  is_expm (Rmat_of A) E -> (i < 4)%nat -> (j < 4)%nat ->
  (b < entry (snd (taylor A N)) i j - 2 * pow_fact_q (4 * a) (S N))%Q ->
  (Q2R b < E i j)%R.
Proof.
  intros A a b N E i j Ha HA HN HE Hi Hj Hb.
  pose proof (expm_entry_enclosure A a N E i j Ha HA HN HE Hi Hj) as H.
  apply Qlt_Rlt in Hb. rewrite Q2R_minus in Hb.
  unfold Rabs in H. destruct (Rcase_abs _) in H; lra.
Qed.

Lemma vec_mat_P0 : forall (E : Rmat) j, vec_mat P0 E j = E 0%nat j.
Proof.
  intros E j. unfold vec_mat, sum4, P0. cbn [nth].
  rewrite Q2R_1, Q2R_0. ring.
Qed.

Lemma is_P_t_exists : forall (Qm : mat) (v : list Q) (t : Q),
  exists Pt, is_P_t Qm v t Pt.
Proof.
  intros Qm v t. destruct (expm_exists_mat (scale_mat Qm t)) as [E HE].
  exists (vec_mat v E). exists E. split; [exact HE | reflexivity].
Qed.

Lemma is_P_t_unique : forall (Qm : mat) (v : list Q) (t : Q) Pt Pt',
  is_P_t Qm v t Pt -> is_P_t Qm v t Pt' -> forall j, Pt j = Pt' j.
Proof.
  intros Qm v t Pt Pt' (E & HE & HP) (E' & HE' & HP') j.
  rewrite HP, HP'. unfold vec_mat, sum4.
  rewrite !(expm_unique _ E E' HE HE'). reflexivity.
Qed.



(** ** Products of exponentially bounded series *)

Lemma pow_fact_alt : forall c k, pow_fact c k = (/ INR (fact k) * c ^ k)%R.
Proof. intros c k. unfold pow_fact, Rdiv. ring. Qed.



Lemma cauchy_rest_bound : forall (a b : nat -> R) (alpha beta : R) (N : nat),
  (forall k, (Rabs (a k) <= pow_fact alpha k)%R) ->
  (forall k, (Rabs (b k) <= pow_fact beta k)%R) ->
  (Rabs (cauchy_rest a b N) <= Reste_E alpha beta N)%R.
Proof.
  intros a b alpha beta N Ha Hb. unfold cauchy_rest, Reste_E.
  eapply Rle_trans; [apply Rsum_abs|]. apply sum_Rle. intros k _.
  eapply Rle_trans; [apply Rsum_abs|]. apply sum_Rle. intros l _.
  rewrite Rabs_mult, <- !pow_fact_alt.
  apply Rmult_le_compat; try apply Rabs_pos; [apply Ha | apply Hb].
Qed.

Lemma Un_cv_squeeze_0 : forall (u v : nat -> R),
  (forall n, (Rabs (u n) <= v n)%R) -> Un_cv v 0 -> Un_cv u 0.
Proof.
  intros u v H Hv eps Heps. destruct (Hv eps Heps) as [N HN].
  exists N. intros n Hn. specialize (HN n Hn). unfold Rdist in *.
  rewrite Rminus_0_r in *. specialize (H n).
  assert (v n <= Rabs (v n))%R by apply Rle_abs. lra.
Qed.

(** If two series are bounded term by term by exponential series, the
    Cauchy product of the two converges to the product of their sums. *)
Lemma cauchy_sum_cv : forall (a b : nat -> R) (alpha beta la lb : R),
  (forall k, (Rabs (a k) <= pow_fact alpha k)%R) ->
  (forall k, (Rabs (b k) <= pow_fact beta k)%R) ->
  Un_cv (sum_f_R0 a) la -> Un_cv (sum_f_R0 b) lb ->
  Un_cv (cauchy_sum a b) (la * lb).
Proof.
  intros a b alpha beta la lb Ha Hb Hla Hlb.
  assert (HR : Un_cv (cauchy_rest a b) 0).
  { apply (Un_cv_squeeze_0 _ (Reste_E alpha beta)).
    - intros n. apply cauchy_rest_bound; assumption.
    - apply Reste_E_cv. }
  pose proof (CV_minus _ _ _ _ (CV_mult _ _ _ _ Hla Hlb) HR) as H.
  rewrite Rminus_0_r in H.
  intros eps Heps. destruct (H eps Heps) as [N HN].
  exists (S N). intros n Hn. specialize (HN n ltac:(lia)).
  replace (cauchy_sum a b n)
    with (sum_f_R0 a n * sum_f_R0 b n - cauchy_rest a b n)%R; [exact HN|].
  rewrite (cauchy_finite a b n) by lia.
  unfold cauchy_sum, cauchy_rest. ring.
Qed.

(** The exponential series itself, in the form used here. *)
Lemma pow_fact_series : forall c : R, Un_cv (sum_f_R0 (pow_fact c)) (exp c).
Proof.
  intros c. pose proof (E1_cvg c) as H.
  intros eps Heps. destruct (H eps Heps) as [N HN]. exists N. intros n Hn.
  specialize (HN n Hn). unfold E1 in HN.
  rewrite (sum_eq (pow_fact c) (fun k => (/ INR (fact k) * c ^ k)%R)); [exact HN|].
  intros i _. apply pow_fact_alt.
Qed.

(** The binomial formula on the terms of exponential series. *)
Lemma pow_fact_binomial : forall (s t : R) (k : nat),
  pow_fact (s + t) k
  = sum_f_R0 (fun p => (pow_fact s p * pow_fact t (k - p))%R) k.
Proof.
  intros s t k. unfold pow_fact at 1. rewrite binomial.
  unfold Rdiv. rewrite Rmult_comm, scal_sum. apply sum_eq. intros i Hi.
  unfold C, pow_fact.
  field. repeat split; apply INR_fact_neq_0.
Qed.

(** ** Algebra of 4x4 real matrices *)



Lemma Un_cv_ext : forall (u v : nat -> R) (l : R),
  (forall n, u n = v n) -> Un_cv u l -> Un_cv v l.
Proof.
  intros u v l H Hu eps Heps. destruct (Hu eps Heps) as [N HN].
  exists N. intros n Hn. rewrite <- H. apply HN. exact Hn.
Qed.

Lemma sum4_ext : forall f g : nat -> R,
  (forall k, (k < 4)%nat -> f k = g k) -> sum4 f = sum4 g.
Proof.
  intros f g H. unfold sum4.
  rewrite (H 0%nat), (H 1%nat), (H 2%nat), (H 3%nat) by lia. reflexivity.
Qed.

Lemma sum4_sum_f_R0 : forall (f : nat -> nat -> R) (N : nat),
  sum4 (fun m => sum_f_R0 (f m) N)
  = sum_f_R0 (fun k => sum4 (fun m => f m k)) N.
Proof.
  intros f N. induction N as [|N IH].
  - reflexivity.
  - cbn [sum_f_R0]. rewrite <- IH. unfold sum4. ring.
Qed.

Lemma Un_cv_sum4 : forall (u : nat -> nat -> R) (l : nat -> R),
  (forall m, Un_cv (u m) (l m)) ->
  Un_cv (fun N => sum4 (fun m => u m N)) (sum4 l).
Proof.
  intros u l H. unfold sum4.
  apply CV_plus; [apply CV_plus; [apply CV_plus|]|]; apply H.
Qed.

Lemma Mmul_assoc : forall A B C i j,
  Mmul (Mmul A B) C i j = Mmul A (Mmul B C) i j.
Proof. intros A B C i j. unfold Mmul, sum4. ring. Qed.

Lemma Mmul_Mid_r : forall A i j, (j < 4)%nat -> Mmul A Mid i j = A i j.
Proof.
  intros A i j Hj. unfold Mmul, sum4, Mid.
  destruct j as [|[|[|[|j]]]]; try lia; simpl; ring.
Qed.

Lemma Mmul_Mid_l : forall A i j, (i < 4)%nat -> Mmul Mid A i j = A i j.
Proof.
  intros A i j Hi. unfold Mmul, sum4, Mid.
  destruct i as [|[|[|[|i]]]]; try lia; simpl; ring.
Qed.

Lemma Mpow_add : forall A n m i j, (j < 4)%nat ->
  Mpow A (n + m) i j = Mmul (Mpow A n) (Mpow A m) i j.
Proof.
  intros A n m. induction m as [|m IH]; intros i j Hj.
  - rewrite Nat.add_0_r. cbn [Mpow]. rewrite Mmul_Mid_r by exact Hj. reflexivity.
  - replace (n + S m)%nat with (S (n + m)) by lia. cbn [Mpow].
    rewrite <- Mmul_assoc. apply Mmul_ext_l. intros k Hk. apply IH. exact Hk.
Qed.

Lemma Mpow_Mscale : forall s A k i j,
  Mpow (Mscale s A) k i j = (s ^ k * Mpow A k i j)%R.
Proof.
  intros s A k. induction k as [|k IH]; intros i j.
  - simpl. ring.
  - cbn [Mpow]. unfold Mmul at 1.
    rewrite (sum4_ext _ (fun m => (s ^ S k * (Mpow A k i m * A m j))%R)).
    + unfold Mmul, sum4. ring.
    + intros m _. rewrite IH. unfold Mscale. simpl pow. ring.
Qed.

Lemma expm_term_Mscale : forall s A k i j,
  expm_term (Mscale s A) k i j = (pow_fact s k * Mpow A k i j)%R.
Proof.
  intros s A k i j. unfold expm_term, pow_fact. rewrite Mpow_Mscale.
  unfold Rdiv. ring.
Qed.

Lemma Mscale_bound : forall s A g,
  (forall i j, (Rabs (A i j) <= g)%R) ->
  forall i j, (Rabs (Mscale s A i j) <= Rabs s * g)%R.
Proof.
  intros s A g H i j. unfold Mscale. rewrite Rabs_mult.
  apply Rmult_le_compat_l; [apply Rabs_pos | apply H].
Qed.

(** ** The exponential of a sum of two multiples of one matrix *)

Lemma expm_term_semigroup : forall (G : Rmat) (s t : R) k i j, (j < 4)%nat ->
  expm_term (Mscale (s + t) G) k i j
  = sum4 (fun m =>
            sum_f_R0 (fun p => (expm_term (Mscale s G) p i m
                                * expm_term (Mscale t G) (k - p) m j)%R) k).
Proof.
  intros G s t k i j Hj.
  rewrite sum4_sum_f_R0, expm_term_Mscale, pow_fact_binomial.
  rewrite Rmult_comm, scal_sum. apply sum_eq. intros p Hp.
  rewrite (sum4_ext _ (fun m => (pow_fact s p * pow_fact t (k - p)
                                 * (Mpow G p i m * Mpow G (k - p) m j))%R))
    by (intros m _; rewrite !expm_term_Mscale; ring).
  transitivity (pow_fact s p * pow_fact t (k - p)
                * Mmul (Mpow G p) (Mpow G (k - p)) i j)%R.
  - rewrite <- Mpow_add by exact Hj.
    replace (p + (k - p))%nat with k by lia. ring.
  - unfold Mmul, sum4. ring.
Qed.

Theorem expm_semigroup : forall (G Es Et E : Rmat) (g s t : R),
  (forall i j, (Rabs (G i j) <= g)%R) ->
  is_expm (Mscale s G) Es -> is_expm (Mscale t G) Et ->
  is_expm (Mscale (s + t) G) E ->
  forall i j, (j < 4)%nat -> E i j = Mmul Es Et i j.
Proof.
  intros G Es Et E g s t HG Hs Ht HE i j Hj.
  apply (UL_sequence _ _ _ (HE i j)).
  apply (Un_cv_ext
           (fun N => sum4 (fun m =>
              cauchy_sum (fun p => expm_term (Mscale s G) p i m)
                         (fun q => expm_term (Mscale t G) q m j) N))).
  - intros N. unfold cauchy_sum, expm_partial.
    rewrite sum4_sum_f_R0. apply sum_eq. intros k _.
    rewrite expm_term_semigroup by exact Hj. reflexivity.
  - unfold Mmul.
    apply (Un_cv_sum4
             (fun m N => cauchy_sum (fun p => expm_term (Mscale s G) p i m)
                                    (fun q => expm_term (Mscale t G) q m j) N)
             (fun m => (Es i m * Et m j)%R)).
    intros m.
    apply (cauchy_sum_cv _ _ (4 * (Rabs s * g)) (4 * (Rabs t * g))).
    + intros k. apply expm_term_bound. apply Mscale_bound. exact HG.
    + intros k. apply expm_term_bound. apply Mscale_bound. exact HG.
    + exact (Hs i m).
    + exact (Ht m j).
Qed.

(** ** The exponential of a matrix shifted by a multiple of the identity *)

(** A reindexing identity for convolutions: [S n] times the convolution at
    [S n] splits into the two convolutions at [n] of the sequences
    advanced by one step. *)
Lemma conv_step : forall (T tau : nat -> R) (n : nat),
  (INR (S n) * sum_f_R0 (fun p => T p * tau (S n - p)%nat) (S n)
   = sum_f_R0 (fun p => INR (S p) * T (S p) * tau (n - p)%nat) n
     + sum_f_R0 (fun p => T p * (INR (S (n - p)) * tau (S (n - p)))) n)%R.
Proof.
  intros T tau n.
  rewrite scal_sum.
  rewrite (sum_eq _ (fun p => (INR p * T p * tau (S n - p)%nat
                               + INR (S n - p) * T p * tau (S n - p)%nat)%R)).
  2:{ intros p Hp.
      replace (INR (S n)) with (INR p + INR (S n - p))%R
        by (rewrite <- plus_INR; f_equal; lia).
      ring. }
  rewrite sum_plus. f_equal.
  - rewrite decomp_sum by lia. simpl INR at 1.
    rewrite !Rmult_0_l, Rplus_0_l. cbn [pred].
    apply sum_eq. intros p _. rewrite Nat.sub_succ. reflexivity.
  - cbn [sum_f_R0]. rewrite Nat.sub_diag. simpl INR at 2.
    rewrite !Rmult_0_l, Rplus_0_r.
    apply sum_eq. intros p Hp.
    replace (S n - p)%nat with (S (n - p)) by lia. ring.
Qed.

Lemma expm_term_step : forall (A : Rmat) k i j,
  (INR (S k) * expm_term A (S k) i j
   = sum4 (fun m => expm_term A k i m * A m j))%R.
Proof.
  intros A k i j. unfold expm_term. cbn [Mpow]. unfold Mmul, sum4.
  rewrite fact_simpl, mult_INR. field.
  split; first [apply INR_fact_neq_0 | apply not_0_INR; lia].
Qed.

Lemma pow_fact_step : forall c q, (INR (S q) * pow_fact c (S q) = c * pow_fact c q)%R.
Proof.
  intros c q. rewrite pow_fact_S. field. apply not_0_INR. lia.
Qed.

Lemma sum_scal_l : forall (f : nat -> R) (c : R) (N : nat),
  sum_f_R0 (fun p => (c * f p)%R) N = (c * sum_f_R0 f N)%R.
Proof.
  intros f c N. induction N as [|N IH]; cbn [sum_f_R0]; [reflexivity|].
  rewrite IH. ring.
Qed.

Lemma sum_scal_r : forall (f : nat -> R) (c : R) (N : nat),
  sum_f_R0 (fun p => (f p * c)%R) N = (sum_f_R0 f N * c)%R.
Proof.
  intros f c N. induction N as [|N IH]; cbn [sum_f_R0]; [reflexivity|].
  rewrite IH. ring.
Qed.

Lemma expm_term_shift : forall (B : Rmat) (c : R) n i j, (j < 4)%nat ->
  expm_term (Mshift B c) n i j
  = sum_f_R0 (fun p => (expm_term B p i j * pow_fact c (n - p))%R) n.
Proof.
  intros B c n. induction n as [|n IH]; intros i j Hj.
  - cbn [sum_f_R0 Nat.sub]. unfold expm_term, pow_fact. simpl. field.
  - set (W := fun i0 j0 : nat =>
                sum_f_R0 (fun p => (expm_term B p i0 j0 * pow_fact c (n - p))%R) n).
    apply (Rmult_eq_reg_l (INR (S n))); [|apply not_0_INR; lia].
    rewrite expm_term_step.
    rewrite (conv_step (fun p => expm_term B p i j) (pow_fact c) n).
    assert (E1 : sum4 (fun m => (expm_term (Mshift B c) n i m * Mshift B c m j)%R)
                 = (sum4 (fun m => (W i m * B m j)%R) + c * W i j)%R).
    { rewrite (sum4_ext _ (fun m => (W i m * (B m j + c * Mid m j))%R))
        by (intros m Hm; rewrite (IH i m Hm); reflexivity).
      rewrite <- (Mmul_Mid_r W i j Hj).
      unfold Mmul, sum4. ring. }
    assert (E2 : sum4 (fun m => (W i m * B m j)%R)
                 = sum_f_R0 (fun p => (INR (S p) * expm_term B (S p) i j
                                       * pow_fact c (n - p))%R) n).
    { rewrite (sum4_ext _ (fun m =>
                 sum_f_R0 (fun p => (expm_term B p i m * B m j
                                     * pow_fact c (n - p))%R) n)).
      - rewrite sum4_sum_f_R0. apply sum_eq. intros p _.
        rewrite expm_term_step. unfold sum4. ring.
      - intros m _. unfold W. rewrite <- sum_scal_r.
        apply sum_eq. intros p _. ring. }
    assert (E3 : (c * W i j)%R
                 = sum_f_R0 (fun p => (expm_term B p i j
                     * (INR (S (n - p)) * pow_fact c (S (n - p))))%R) n).
    { unfold W. rewrite <- sum_scal_l. apply sum_eq. intros p _.
      rewrite pow_fact_step. ring. }
    rewrite E1, E2, E3. reflexivity.
Qed.

Lemma pow_fact_Rabs : forall c k, (Rabs (pow_fact c k) <= pow_fact (Rabs c) k)%R.
Proof.
  intros c k. unfold pow_fact, Rdiv. rewrite Rabs_mult, RPow_abs.
  rewrite (Rabs_pos_eq (/ INR (fact k)))
    by (left; apply Rinv_0_lt_compat; apply INR_fact_lt_0).
  apply Rle_refl.
Qed.

Theorem expm_shift : forall (B EB E : Rmat) (b c : R),
  (forall i j, (Rabs (B i j) <= b)%R) ->
  is_expm B EB -> is_expm (Mshift B c) E ->
  forall i j, (j < 4)%nat -> E i j = (EB i j * exp c)%R.
Proof.
  intros B EB E b c HB HEB HE i j Hj.
  apply (UL_sequence _ _ _ (HE i j)).
  apply (Un_cv_ext (cauchy_sum (fun p => expm_term B p i j) (pow_fact c))).
  - intros N. unfold cauchy_sum, expm_partial. apply sum_eq. intros k _.
    rewrite expm_term_shift by exact Hj. reflexivity.
  - apply (cauchy_sum_cv _ _ (4 * b) (Rabs c)).
    + intros k. apply expm_term_bound. exact HB.
    + intros k. apply pow_fact_Rabs.
    + exact (HEB i j).
    + apply pow_fact_series.
Qed.

(** ** Generators: non-negativity, row sums, absorption *)

Lemma Mpow_ext : forall A A' : Rmat,
  (forall i j, A i j = A' i j) ->
  forall k i j, Mpow A k i j = Mpow A' k i j.
Proof.
  intros A A' H k. induction k as [|k IH]; intros i j; [reflexivity|].
  cbn [Mpow]. unfold Mmul. apply sum4_ext. intros m _. rewrite IH, H. reflexivity.
Qed.

Lemma is_expm_ext : forall A A' E : Rmat,
  (forall i j, A i j = A' i j) -> is_expm A E -> is_expm A' E.
Proof.
  intros A A' E H HE i j.
  apply (Un_cv_ext (fun N => expm_partial A N i j)); [|apply HE].
  intros N. unfold expm_partial. apply sum_eq. intros k _.
  unfold expm_term. rewrite (Mpow_ext A A' H). reflexivity.
Qed.

Lemma sum4_nonneg : forall f : nat -> R,
  (forall k, (0 <= f k)%R) -> (0 <= sum4 f)%R.
Proof.
  intros f H. unfold sum4.
  pose proof (H 0%nat). pose proof (H 1%nat).
  pose proof (H 2%nat). pose proof (H 3%nat). lra.
Qed.

Lemma Mpow_nonneg : forall A : Rmat,
  (forall i j, (0 <= A i j)%R) -> forall k i j, (0 <= Mpow A k i j)%R.
Proof.
  intros A H k. induction k as [|k IH]; intros i j.
  - simpl. unfold Mid. destruct (Nat.eqb i j); lra.
  - cbn [Mpow]. unfold Mmul. apply sum4_nonneg. intros m.
    apply Rmult_le_pos; [apply IH | apply H].
Qed.

Lemma Un_cv_nonneg : forall (u : nat -> R) (l : R),
  (forall n, (0 <= u n)%R) -> Un_cv u l -> (0 <= l)%R.
Proof.
  intros u l H Hu. destruct (Rle_or_lt 0 l) as [Hl | Hl]; [exact Hl|].
  destruct (Hu (- l)%R ltac:(lra)) as [N HN].
  specialize (HN N ltac:(lia)). unfold Rdist in HN.
  apply Rabs_def2 in HN. specialize (H N). lra.
Qed.

Lemma expm_nonneg : forall A E : Rmat,
  (forall i j, (0 <= A i j)%R) -> is_expm A E ->
  forall i j, (0 <= E i j)%R.
Proof.
  intros A E H HE i j.
  assert (Ht : forall k, (0 <= expm_term A k i j)%R).
  { intros k. unfold expm_term.
    apply Rmult_le_pos; [apply Mpow_nonneg; exact H|].
    left. apply Rinv_0_lt_compat. apply INR_fact_lt_0. }
  apply (Un_cv_nonneg (fun N => expm_partial A N i j)); [|apply HE].
  intros N. unfold expm_partial. apply cond_pos_sum. exact Ht.
Qed.

(** A matrix with non-negative off-diagonal entries and diagonal entries
    at least [- lam] has an entrywise non-negative exponential. *)
Theorem expm_offdiag_nonneg : forall (A E : Rmat) (a lam : R),
  (forall i j, (Rabs (A i j) <= a)%R) ->
  (forall i j, i <> j -> (0 <= A i j)%R) ->
  (forall i, (- lam <= A i i)%R) ->
  is_expm A E ->
  forall i j, (j < 4)%nat -> (0 <= E i j)%R.
Proof.
  intros A E a lam Ha Hoff Hdiag HE i j Hj.
  set (B := Mshift A lam).
  assert (HBpos : forall i0 j0, (0 <= B i0 j0)%R).
  { intros i0 j0. unfold B, Mshift, Mid.
    destruct (Nat.eqb i0 j0) eqn:Eij.
    - apply Nat.eqb_eq in Eij. subst j0. specialize (Hdiag i0). lra.
    - apply Nat.eqb_neq in Eij. specialize (Hoff i0 j0 Eij). lra. }
  assert (HBb : forall i0 j0, (Rabs (B i0 j0) <= a + Rabs lam)%R).
  { intros i0 j0. unfold B, Mshift.
    eapply Rle_trans; [apply Rabs_triang|].
    apply Rplus_le_compat; [apply Ha|].
    rewrite Rabs_mult. pose proof (Mid_bound i0 j0). pose proof (Rabs_pos lam).
    pose proof (Rabs_pos (Mid i0 j0)). nra. }
  destruct (expm_exists B _ HBb) as [EB HEB].
  assert (HE' : is_expm (Mshift B (- lam)) E).
  { apply (is_expm_ext A); [|exact HE].
    intros i0 j0. unfold B, Mshift. ring. }
  rewrite (expm_shift B EB E _ (- lam) HBb HEB HE' i j Hj).
  apply Rmult_le_pos; [apply (expm_nonneg B EB HBpos HEB) | left; apply exp_pos].
Qed.

(** When the rows of [A] sum to zero, so do the rows of its positive
    powers, and the rows of the exponential sum to one. *)
Lemma Mpow_row_sum : forall A : Rmat,
  (forall m, (m < 4)%nat -> sum4 (A m) = 0%R) ->
  forall k i, sum4 (Mpow A (S k) i) = 0%R.
Proof.
  intros A H k i. cbn [Mpow].
  transitivity (sum4 (fun m => (Mpow A k i m * sum4 (A m))%R)).
  - unfold Mmul, sum4. ring.
  - rewrite (sum4_ext _ (fun _ => 0%R)).
    + unfold sum4. ring.
    + intros m Hm. rewrite (H m Hm). ring.
Qed.

Lemma expm_partial_row_sum : forall A : Rmat,
  (forall m, (m < 4)%nat -> sum4 (A m) = 0%R) ->
  forall N i, (i < 4)%nat -> sum4 (expm_partial A N i) = 1%R.
Proof.
  intros A H N i Hi. induction N as [|N IH].
  - unfold expm_partial, expm_term, sum4. cbn [sum_f_R0 Mpow fact]. unfold Mid.
    destruct i as [|[|[|[|i]]]]; try lia; simpl; field.
  - transitivity (sum4 (expm_partial A N i)
                  + sum4 (Mpow A (S N) i) / INR (fact (S N)))%R.
    + unfold expm_partial, expm_term, sum4. cbn [sum_f_R0]. field.
      apply INR_fact_neq_0.
    + rewrite IH, Mpow_row_sum by exact H. field. apply INR_fact_neq_0.
Qed.

Theorem expm_row_sum : forall A E : Rmat,
  (forall m, (m < 4)%nat -> sum4 (A m) = 0%R) ->
  is_expm A E -> forall i, (i < 4)%nat -> sum4 (E i) = 1%R.
Proof.
  intros A E H HE i Hi.
  pose proof (Un_cv_sum4 (fun j N => expm_partial A N i j) (E i)
                (fun j => HE i j)) as Hcv.
  apply (UL_sequence _ _ _ Hcv).
  apply (Un_cv_ext (fun _ => 1%R)).
  - intros N. symmetry. apply (expm_partial_row_sum A H N i Hi).
  - intros eps Heps. exists 0%nat. intros n _. unfold Rdist.
    rewrite Rminus_diag, Rabs_R0. exact Heps.
Qed.

(** A zero row of [A] is a row of the identity in the exponential. *)
Lemma Mpow_zero_row : forall (A : Rmat) (r : nat),
  (r < 4)%nat -> (forall j, A r j = 0%R) ->
  forall k j, Mpow A (S k) r j = 0%R.
Proof.
  intros A r Hr H k. induction k as [|k IH]; intros j.
  - cbn [Mpow]. rewrite Mmul_Mid_l by exact Hr. apply H.
  - change (Mpow A (S (S k)) r j) with (Mmul (Mpow A (S k)) A r j).
    unfold Mmul. rewrite (sum4_ext _ (fun _ => 0%R)).
    + unfold sum4. ring.
    + intros m _. rewrite IH. ring.
Qed.

Theorem expm_zero_row : forall (A E : Rmat) (r : nat),
  (r < 4)%nat -> (forall j, A r j = 0%R) -> is_expm A E ->
  forall j, E r j = Mid r j.
Proof.
  intros A E r Hr H HE j.
  apply (UL_sequence _ _ _ (HE r j)).
  apply (Un_cv_ext (fun _ => Mid r j)).
  - intros N. induction N as [|N IH].
    + unfold expm_partial, expm_term. simpl. field.
    + unfold expm_partial in *. cbn [sum_f_R0]. rewrite <- IH.
      assert (Z : expm_term A (S N) r j = 0%R).
      { unfold expm_term. rewrite Mpow_zero_row by assumption.
        unfold Rdiv. ring. }
      rewrite Z. ring.
  - intros eps Heps. exists 0%nat. intros n _. unfold Rdist.
    rewrite Rminus_diag, Rabs_R0. exact Heps.
Qed.

(** ** The transient solution for non-negative rates *)

Lemma Rmat_of_scale_mat : forall (M : mat) (t : Q) i j,
  Rmat_of (scale_mat M t) i j = Mscale (Q2R t) (Rmat_of M) i j.
Proof.
  intros M t i j. unfold Rmat_of, Mscale, entry, scale_mat.
  change (@nil Q) with (map (fun x => (x * t)%Q) (@nil Q)) at 1.
  rewrite (map_nth (map (fun x => (x * t)%Q)) M []).
  destruct (Nat.lt_ge_cases j (length (nth i M []))) as [Hj | Hj].
  - rewrite (nth_indep _ 0%Q (0 * t)%Q) by (rewrite length_map; exact Hj).
    rewrite (map_nth (fun x => (x * t)%Q)), Q2R_mult. ring.
  - rewrite !nth_overflow by (try rewrite length_map; exact Hj).
    rewrite Q2R_0. ring.
Qed.

Lemma Q2R_nonneg : forall q : Q, (0 <= q)%Q -> (0 <= Q2R q)%R.
Proof. intros q H. rewrite <- Q2R_0. apply Qle_Rle. exact H. Qed.

Section NonNegativeRates.

Variables u d f : Q.
Hypothesis Hu : (0 <= u)%Q.
Hypothesis Hd : (0 <= d)%Q.
Hypothesis Hf : (0 <= f)%Q.

(** The generator as a real matrix. *)
Let G : Rmat := Rmat_of (Q_matrix u d f).

Lemma G_entries : forall i j,
  G i j =
  match i, j with
  | 0%nat, 0%nat => (- Q2R u)%R
  | 0%nat, 1%nat => Q2R u
  | 1%nat, 0%nat => Q2R d
  | 1%nat, 1%nat => (- (Q2R u + Q2R d))%R
  | 1%nat, 2%nat => Q2R u
  | 2%nat, 1%nat => Q2R d
  | 2%nat, 2%nat => (- (Q2R f + Q2R d))%R
  | 2%nat, 3%nat => Q2R f
  | _, _ => 0%R
  end.
Proof.
  intros i j. unfold G, Rmat_of, entry, Q_matrix.
  destruct i as [|[|[|[|i]]]]; destruct j as [|[|[|[|j]]]]; cbn [nth];
    repeat match goal with
           | |- context [match ?k with O => _ | S _ => _ end] =>
               destruct k; cbn [nth]
           end;
    rewrite ?Q2R_opp, ?Q2R_plus, ?Q2R_0; reflexivity.
Qed.

Lemma G_offdiag : forall i j, i <> j -> (0 <= G i j)%R.
Proof.
  intros i j Hij. rewrite G_entries.
  pose proof (Q2R_nonneg u Hu). pose proof (Q2R_nonneg d Hd).
  pose proof (Q2R_nonneg f Hf).
  destruct i as [|[|[|i]]]; destruct j as [|[|[|[|j]]]];
    try lra; try congruence.
Qed.

Lemma G_diag : forall i, (- (Q2R u + Q2R d + Q2R f) <= G i i)%R.
Proof.
  intros i. rewrite G_entries.
  pose proof (Q2R_nonneg u Hu). pose proof (Q2R_nonneg d Hd).
  pose proof (Q2R_nonneg f Hf).
  destruct i as [|[|[|i]]]; lra.
Qed.

Lemma G_row_sum : forall m, (m < 4)%nat -> sum4 (G m) = 0%R.
Proof.
  intros m Hm. unfold sum4. rewrite !G_entries.
  destruct m as [|[|[|[|m]]]]; try lia; lra.
Qed.

Lemma G_failure_row : forall j, G 3%nat j = 0%R.
Proof. intros j. rewrite G_entries. reflexivity. Qed.

(** The same four properties for [Q * t] with [t >= 0]. *)
Lemma scaled_generator : forall t : Q, (0 <= t)%Q ->
  let A := Mscale (Q2R t) G in
  (forall i j, i <> j -> (0 <= A i j)%R) /\
  (forall i, (- (Q2R t * (Q2R u + Q2R d + Q2R f)) <= A i i)%R) /\
  (forall m, (m < 4)%nat -> sum4 (A m) = 0%R) /\
  (forall j, A 3%nat j = 0%R).
Proof.
  intros t Ht A. pose proof (Q2R_nonneg t Ht) as Ht'.
  unfold A, Mscale. repeat split.
  - intros i j Hij. apply Rmult_le_pos; [exact Ht' | apply G_offdiag; exact Hij].
  - intros i. pose proof (G_diag i). nra.
  - intros m Hm. pose proof (G_row_sum m Hm) as H. unfold sum4 in *. nra.
  - intros j. rewrite G_failure_row. ring.
Qed.

Lemma scaled_bounded : forall t : Q,
  exists a, forall i j, (Rabs (Mscale (Q2R t) G i j) <= a)%R.
Proof.
  intros t. destruct (Rmat_of_bounded (Q_matrix u d f)) as [g Hg].
  exists (Rabs (Q2R t) * g)%R. apply Mscale_bound. exact Hg.
Qed.

Lemma is_expm_scaled : forall (t : Q) (E : Rmat),
  is_expm (Rmat_of (scale_mat (Q_matrix u d f) t)) E <->
  is_expm (Mscale (Q2R t) G) E.
Proof.
  intros t E. split; apply is_expm_ext; intros i j;
    [|symmetry]; apply Rmat_of_scale_mat.
Qed.

(** For non-negative rates and [t >= 0], [P0 @ expm(Q * t)] is a
    probability distribution. *)
Lemma P_t_is_distribution : forall (t : Q) (Pt : nat -> R),
  (0 <= t)%Q -> is_P_t (Q_matrix u d f) P0 t Pt -> is_distribution Pt.
Proof.
  intros t Pt Ht (E & HE & HP). apply is_expm_scaled in HE.
  destruct (scaled_generator t Ht) as (Hoff & Hdiag & Hrow & _).
  destruct (scaled_bounded t) as [a Ha].
  split.
  - intros j Hj. rewrite HP, vec_mat_P0.
    exact (expm_offdiag_nonneg _ E a _ Ha Hoff Hdiag HE 0%nat j Hj).
  - pose proof (expm_row_sum _ E Hrow HE 0%nat ltac:(lia)) as H.
    unfold sum4 in *. rewrite !HP, !vec_mat_P0. exact H.
Qed.

(** The Failure component never decreases between two times. *)
Lemma P_t_failure_monotone : forall (t1 t2 : Q) (Pt1 Pt2 : nat -> R),
  (0 <= t1)%Q -> (t1 <= t2)%Q ->
  is_P_t (Q_matrix u d f) P0 t1 Pt1 -> is_P_t (Q_matrix u d f) P0 t2 Pt2 ->
  (Pt1 3%nat <= Pt2 3%nat)%R.
Proof.
  intros t1 t2 Pt1 Pt2 Ht1 Ht12 (E1 & HE1 & HP1) (E2 & HE2 & HP2).
  apply is_expm_scaled in HE1. apply is_expm_scaled in HE2.
  rewrite HP1, HP2, !vec_mat_P0.
  set (dt := (t2 - t1)%Q).
  assert (Hdt : (0 <= dt)%Q) by (subst dt; lra).
  destruct (scaled_bounded dt) as [ad Had].
  destruct (expm_exists _ ad Had) as [Ed HEd].
  destruct (Rmat_of_bounded (Q_matrix u d f)) as [g Hg].
  assert (HE2' : is_expm (Mscale (Q2R t1 + Q2R dt) G) E2).
  { apply (is_expm_ext (Mscale (Q2R t2) G)); [|exact HE2].
    intros i j. unfold Mscale. subst dt. rewrite Q2R_minus. ring. }
  rewrite (expm_semigroup G E1 Ed E2 g _ _ Hg HE1 HEd HE2' 0%nat 3%nat ltac:(lia)).
  destruct (scaled_generator t1 Ht1) as (Hoff1 & Hdiag1 & _ & _).
  destruct (scaled_generator dt Hdt) as (Hoffd & Hdiagd & _ & Hrowd).
  destruct (scaled_bounded t1) as [a1 Ha1].
  pose proof (fun j Hj => expm_offdiag_nonneg _ E1 a1 _ Ha1 Hoff1 Hdiag1 HE1 0%nat j Hj) as N1.
  pose proof (fun i => expm_offdiag_nonneg _ Ed ad _ Had Hoffd Hdiagd HEd i 3%nat ltac:(lia)) as Nd.
  pose proof (expm_zero_row _ Ed 3%nat ltac:(lia) Hrowd HEd 3%nat) as Z.
  unfold Mid in Z. cbn in Z.
  unfold Mmul, sum4. rewrite Z.
  pose proof (N1 0%nat ltac:(lia)). pose proof (N1 1%nat ltac:(lia)).
  pose proof (N1 2%nat ltac:(lia)).
  pose proof (Nd 0%nat). pose proof (Nd 1%nat). pose proof (Nd 2%nat).
  nra.
Qed.

End NonNegativeRates.

(** At time zero the exponential is the identity: [P0 @ expm(Q * 0) = P0]. *)
Lemma P_t_at_zero : forall (Qm : mat) (t : Q) (Pt : nat -> R),
  (t == 0)%Q -> is_P_t Qm P0 t Pt -> forall j, Pt j = Q2R (nth j P0 0%Q).
Proof.
  intros Qm t Pt Ht (E & HE & HP) j.
  rewrite HP, vec_mat_P0.
  assert (HZ : forall j0, Rmat_of (scale_mat Qm t) 0%nat j0 = 0%R).
  { intros j0. rewrite Rmat_of_scale_mat. unfold Mscale.
    rewrite (Qeq_eqR _ _ Ht), Q2R_0. ring. }
  rewrite (expm_zero_row _ E 0%nat ltac:(lia) HZ HE j).
  unfold Mid, P0. destruct j as [|[|[|[|j]]]]; cbn;
    try destruct j; rewrite ?Q2R_1, ?Q2R_0; reflexivity.
Qed.

Lemma P0_is_distribution : forall Pt : nat -> R,
  (forall j, Pt j = Q2R (nth j P0 0%Q)) -> is_distribution Pt.
Proof.
  intros Pt H. split.
  - intros j Hj. rewrite H. apply Q2R_nonneg. unfold P0.
    destruct j as [|[|[|[|j]]]]; try lia; discriminate.
  - unfold sum4. rewrite !H. unfold P0. cbn [nth].
    rewrite Q2R_1, Q2R_0. ring.
Qed.

(** Whenever the arrival rate is below twice the capacity, the matrix is
    built and the transient solution behaves as a Markov chain should: every
    point of the loop is a probability distribution, the solution at time
    zero is [P0], and the Failure-state probability never decreases. *)
Lemma transient_valid_below_twice_capacity :
  forall lambda_rate num_servers : Z,
    0 <= lambda_rate -> num_servers_ok num_servers ->
    lambda_rate < 2 * service_capacity num_servers ->
    exists Qm,
      build_Q lambda_rate num_servers = Ret Qm /\
      (forall t Pt, (0 <= t)%Q -> is_loop_point Qm t Pt -> is_distribution Pt) /\
      (forall t Pt, (0 <= t)%Q -> is_P_t Qm P0 t Pt -> is_distribution Pt) /\
      (forall Pt, is_P_t Qm P0 0 Pt -> forall j, Pt j = Q2R (nth j P0 0%Q)) /\
      (forall t1 t2 p1 p2,
         (0 <= t1)%Q -> (t1 <= t2)%Q ->
         is_crash_prob Qm t1 p1 -> is_crash_prob Qm t2 p2 -> (p1 <= p2)%R).
Proof.
  intros lam n Hlam Hn Hlt.
  destruct (build_Q_valid_below_twice_capacity lam n Hlam Hn Hlt)
    as (u & d & f & HQ & Hu & Hd & Hf & _).
  exists (Q_matrix u d f). split; [exact HQ|].
  assert (LP : forall t Pt, (0 <= t)%Q ->
             is_loop_point (Q_matrix u d f) t Pt -> is_distribution Pt).
  { intros t Pt Ht H. unfold is_loop_point in H.
    destruct (Qeq_bool t 0).
    - apply P0_is_distribution. exact H.
    - exact (P_t_is_distribution u d f Hu Hd Hf t Pt Ht H). }
  split; [exact LP|].
  split; [intros t Pt Ht H; exact (P_t_is_distribution u d f Hu Hd Hf t Pt Ht H)|].
  split; [intros Pt H; apply (P_t_at_zero (Q_matrix u d f) 0 Pt);
          [reflexivity | exact H]|].
  intros t1 t2 p1 p2 Ht1 Ht12 (Pt1 & H1 & ->) (Pt2 & H2 & ->).
  assert (Ht2 : (0 <= t2)%Q) by lra.
  pose proof (LP t2 Pt2 Ht2 H2) as [D2 _].
  unfold is_loop_point in H1, H2.
  destruct (Qeq_bool t1 0) eqn:E1.
  - rewrite H1. unfold P0. cbn [nth]. rewrite Q2R_0.
    apply D2. lia.
  - destruct (Qeq_bool t2 0) eqn:E2.
    + apply Qeq_bool_eq in E2. exfalso.
      assert (C : (t1 == 0)%Q) by lra.
      apply Qeq_eq_bool in C. congruence.
    + exact (P_t_failure_monotone u d f Hu Hd Hf t1 t2 Pt1 Pt2 Ht1 Ht12 H1 H2).
Qed.

(** ** The overloaded system: 200 orders per hour on 25 servers *)

Lemma build_Q_overload : build_Q 200 25 = Ret overload_Q.
Proof. reflexivity. Qed.

Lemma overload_Q_entries :
  (entry overload_Q 0 1 == -20)%Q /\ (entry overload_Q 1 0 == 5 # 2)%Q /\
  (entry overload_Q 2 3 == -40)%Q /\ (entry overload_Q 2 2 == 75 # 2)%Q.
Proof. repeat split; reflexivity. Qed.

Lemma horizon_first_times :
  nth_error time_horizon 0 = Some t0 /\ nth_error time_horizon 1 = Some t1 /\
  (t0 == 0)%Q /\ (t1 == 5 # 99)%Q.
Proof. repeat split; reflexivity. Qed.

(** At the second time of the horizon the four "probabilities" of the
    overloaded system are about 2.58, -2.48, 1.81 and -0.91. *)
Lemma overload_partial_sums :
  let A := scale_mat overload_Q t1 in
  let total := snd (taylor A 30) in
  let r := (2 * pow_fact_q (4 * (203 # 100)) 31)%Q in
  all_entries_le A (203 # 100) = true /\
  (2 < entry total 0 0 - r)%Q /\ (entry total 0 1 + r < -2)%Q /\
  (1 < entry total 0 2 - r)%Q /\ (entry total 0 3 + r < - (9 # 10))%Q.
Proof. vm_compute. repeat split; reflexivity. Qed.

Lemma overload_P_t_values : forall Pt,
  is_P_t overload_Q P0 t1 Pt ->
  (2 < Pt 0%nat)%R /\ (Pt 1%nat < -2)%R /\ (1 < Pt 2%nat)%R /\
  (Pt 3%nat < - (9 / 10))%R.
Proof.
  intros Pt (E & HE & HP).
  rewrite !HP, !vec_mat_P0.
  assert (Ha : (0 <= 203 # 100)%Q) by discriminate.
  assert (HN : (2 * (4 * (203 # 100)) <= inject_Z (Z.of_nat 32))%Q)
    by discriminate.
  destruct overload_partial_sums as (HA & H0 & H1 & H2 & H3).
  repeat split.
  - replace 2%R with (Q2R 2) by (unfold Q2R; simpl; lra).
    exact (enclosure_lower _ _ _ 30 E 0 0 Ha HA HN HE ltac:(lia) ltac:(lia) H0).
  - replace (-2)%R with (Q2R (-2)) by (unfold Q2R; simpl; lra).
    exact (enclosure_upper _ _ _ 30 E 0 1 Ha HA HN HE ltac:(lia) ltac:(lia) H1).
  - replace 1%R with (Q2R 1) by (unfold Q2R; simpl; lra).
    exact (enclosure_lower _ _ _ 30 E 0 2 Ha HA HN HE ltac:(lia) ltac:(lia) H2).
  - replace (- (9 / 10))%R with (Q2R (- (9 # 10))) by (unfold Q2R; simpl; lra).
    exact (enclosure_upper _ _ _ 30 E 0 3 Ha HA HN HE ltac:(lia) ltac:(lia) H3).
Qed.

Lemma loop_point_t1 : forall Pt,
  is_loop_point overload_Q t1 Pt <-> is_P_t overload_Q P0 t1 Pt.
Proof. intros Pt. unfold is_loop_point. reflexivity. Qed.

Lemma loop_point_t0 : forall Pt,
  is_loop_point overload_Q t0 Pt <-> forall j, Pt j = Q2R (nth j P0 0%Q).
Proof. intros Pt. unfold is_loop_point. reflexivity. Qed.

(** C2, at inputs the two widgets accept.  For 200 orders per hour on 25
    servers the matrix [Q] is built, and at the second time of the horizon
    (t = 5/99) the solution [P0 @ expm(Q * t)] exists, is unique, and has
    the Busy component below -2 and the Failure component below -0.9: it is
    not a probability distribution. *)
Theorem transient_at_overload_is_not_a_distribution :
  lambda_rate_ok 200 /\ num_servers_ok 25 /\
  build_Q 200 25 = Ret overload_Q /\
  nth_error time_horizon 1 = Some t1 /\
  exists Pt,
    is_loop_point overload_Q t1 Pt /\
    (forall Pt', is_loop_point overload_Q t1 Pt' -> forall j, Pt' j = Pt j) /\
    (Pt 1%nat < -2)%R /\ (Pt 3%nat < - (9 / 10))%R /\
    ~ is_distribution Pt.
Proof.
  split; [unfold lambda_rate_ok; split; [lia | reflexivity]|].
  split; [unfold num_servers_ok; lia|].
  split; [exact build_Q_overload|].
  split; [reflexivity|].
  destruct (is_P_t_exists overload_Q P0 t1) as [Pt HPt].
  destruct (overload_P_t_values Pt HPt) as (V0 & V1 & V2 & V3).
  exists Pt. split; [apply loop_point_t1; exact HPt|].
  split.
  - intros Pt' H'. apply loop_point_t1 in H'.
    exact (is_P_t_unique _ _ _ _ _ H' HPt).
  - split; [exact V1|]. split; [exact V3|].
    intros [Hnn _]. specialize (Hnn 1%nat ltac:(lia)). lra.
Qed.

(** C3, at inputs the two widgets accept.  For 200 orders per hour on 25
    servers the Failure-state value stored for the first time of the
    horizon (t = 0) is 0, and the one for the second time (t = 5/99) is
    below -0.9: between two consecutive times the "failure probability"
    decreases. *)
Theorem crash_probability_decreases_at_overload :
  build_Q 200 25 = Ret overload_Q /\
  nth_error time_horizon 0 = Some t0 /\
  nth_error time_horizon 1 = Some t1 /\
  (0 <= t0)%Q /\ (t0 <= t1)%Q /\
  exists p0 p1,
    is_crash_prob overload_Q t0 p0 /\ is_crash_prob overload_Q t1 p1 /\
    (forall p, is_crash_prob overload_Q t0 p -> p = p0) /\
    (forall p, is_crash_prob overload_Q t1 p -> p = p1) /\
    p0 = 0%R /\ (p1 < - (9 / 10))%R /\ (p1 < p0)%R.
Proof.
  split; [exact build_Q_overload|].
  split; [reflexivity|]. split; [reflexivity|].
  split; [discriminate|]. split; [discriminate|].
  destruct (is_P_t_exists overload_Q P0 t1) as [Pt HPt].
  destruct (overload_P_t_values Pt HPt) as (V0 & V1 & V2 & V3).
  exists 0%R, (Pt 3%nat).
  split.
  { exists (fun j => Q2R (nth j P0 0%Q)). split.
    - apply loop_point_t0. reflexivity.
    - cbn [nth P0]. symmetry. apply Q2R_0. }
  split.
  { exists Pt. split; [apply loop_point_t1; exact HPt | reflexivity]. }
  split.
  { intros p (Pt' & H' & ->). apply loop_point_t0 in H'.
    rewrite H'. cbn [nth P0]. apply Q2R_0. }
  split.
  { intros p (Pt' & H' & ->). apply loop_point_t1 in H'.
    exact (is_P_t_unique _ _ _ _ _ H' HPt 3%nat). }
  split; [reflexivity|]. split; [exact V3 | lra].
Qed.
